(** * An iterative DNS resolver (resolve.py): shallow embedding and properties

    The resolver walks the delegation hierarchy from the root servers.  The
    external DNS library (message building, transport, parsing, textual
    rendering) is a collaborator: its transport is an oracle of the call
    history, and records carry the renderings the library would print. *)

From Stdlib Require Import ZArith Ascii String List Lia DecimalString.
From stdpp Require Import base decidable option list strings gmap.

Local Open Scope string_scope.
Local Open Scope list_scope.
Local Open Scope Z_scope.

(** ** Python string and list primitives *)

Module Py.

(** [str.isspace] on the code points below 256. *)
Definition isspace (c : ascii) : bool :=
  let n := N_of_ascii c in
  ((9 <=? n) && (n <=? 13) || (28 <=? n) && (n <=? 32)
   || (n =? 133) || (n =? 160))%N.

(** [s.split()]: maximal runs of non-whitespace, no empty strings. *)
Fixpoint split_ws_from (s : string) (word : string) : list string :=
  match s with
  | EmptyString => if decide (word = "") then [] else [word]
  | String c s' =>
      if isspace c
      then (if decide (word = "") then split_ws_from s' ""
            else word :: split_ws_from s' "")
      else split_ws_from s' (word +:+ String c "")
  end.

Definition split_ws (s : string) : list string := split_ws_from s "".

(** [s.split(sep)] for a one-character separator: empty fields are kept
    and the result is never empty. *)
Fixpoint split_on_from (sep : ascii) (s : string) (word : string)
  : list string :=
  match s with
  | EmptyString => [word]
  | String c s' =>
      if decide (c = sep) then word :: split_on_from sep s' ""
      else split_on_from sep s' (word +:+ String c "")
  end.

Definition split_on (sep : ascii) (s : string) : list string :=
  split_on_from sep s "".

(** [l[i]] with Python's negative indices; [None] is IndexError. *)
Definition index {A} (l : list A) (i : Z) : option A :=
  let n := Z.of_nat (length l) in
  let j := if i <? 0 then i + n else i in
  if (0 <=? j) && (j <? n) then l !! Z.to_nat j else None.

(** [s[:-1]] *)
Fixpoint drop_last (s : string) : string :=
  match s with
  | EmptyString => ""
  | String c s' =>
      match s' with
      | EmptyString => ""
      | String _ _ => String c (drop_last s')
      end
  end.

(** [sep.join(l)] *)
Fixpoint join (sep : string) (l : list string) : string :=
  match l with
  | [] => ""
  | x :: rest =>
      match rest with
      | [] => x
      | _ :: _ => x +:+ sep +:+ join sep rest
      end
  end.

(** [c in s] for a character. *)
Fixpoint contains (c : ascii) (s : string) : bool :=
  match s with
  | EmptyString => false
  | String d s' => if decide (d = c) then true else contains c s'
  end.

(** [str(n)] for an integer. *)
Definition str_of_int (n : Z) : string :=
  NilEmpty.string_of_int (Z.to_int n).

End Py.

(** ** Messages of the DNS library, as the resolver reads them *)

(** One record's data: type code, [str(rdata)], and for MX records the
    [preference] and [str(exchange)] attributes. *)
Record rdata := Rdata {
  rdtype : Z;
  rd_str : string;
  preference : Z;
  exchange : string
}.

(** A group of records under one owner name: [str(rrset.name)], the
    records iterated by [for answer in answers], and [str(rrset)]. *)
Record rrset := RRset {
  rr_name : string;
  rr_items : list rdata;
  rr_str : string
}.

Record message := Message {
  answer : list rrset;
  authority : list rrset;
  additional : list rrset
}.

(** Entries of the aggregate built by [collect_results]. *)
Record cname_entry := CnameEntry { cname_name : rdata; cname_alias : string }.
Record addr_entry := AddrEntry { addr_name : string; addr_address : string }.
Record mx_entry := MxEntry {
  mx_name : string;
  mx_preference : Z;
  mx_exchange : string
}.

Record full_response := FullResponse {
  fr_CNAME : list cname_entry;
  fr_A : list addr_entry;
  fr_AAAA : list addr_entry;
  fr_MX : list mx_entry
}.

Definition ROOT_SERVERS : list string :=
  [ "198.41.0.4"; "192.228.79.201"; "192.33.4.12"; "199.7.91.13";
    "192.203.230.10"; "192.5.5.241"; "192.112.36.4"; "198.97.190.53";
    "192.36.148.17"; "192.58.128.30"; "193.0.14.129"; "199.7.83.42";
    "202.12.27.33" ].

(** ** Process state and the resolver's monad *)

(** A transport call: the query's name and type, and the server. *)
Record udp_call := UdpCall {
  call_name : string;
  call_qtype : Z;
  call_server : string
}.

#[global] Instance udp_call_eq_dec : EqDecision udp_call.
Proof. solve_decision. Defined.

(** The two module-level dictionaries, the history of transport calls and
    the lines printed so far. *)
Record state := State {
  dns_cache : gmap string (list string);
  domain_cache : gmap string full_response;
  udp_log : list udp_call;
  stdout : list string
}.

Definition initial_state : state := State ∅ ∅ [] [].

Definition set_dns_cache (c : gmap string (list string)) (s : state) : state :=
  State c (domain_cache s) (udp_log s) (stdout s).

Definition set_domain_cache (c : gmap string full_response) (s : state)
  : state :=
  State (dns_cache s) c (udp_log s) (stdout s).

Definition log_call (c : udp_call) (s : state) : state :=
  State (dns_cache s) (domain_cache s) (udp_log s ++ [c]) (stdout s).

Definition print_line (l : string) (s : state) : state :=
  State (dns_cache s) (domain_cache s) (udp_log s) (stdout s ++ [l]).

Inductive exn := IndexError.

(** A computation returns a value, raises, or exhausts the recursion
    budget given to the embedding of [_recurlookup]. *)
Inductive outcome (A : Type) :=
| Done (a : A) (s : state)
| Raised (e : exn) (s : state)
| OutOfFuel.
Arguments Done {A} a s.
Arguments Raised {A} e s.
Arguments OutOfFuel {A}.

Definition M (A : Type) : Type := state → outcome A.

Definition ret {A} (a : A) : M A := λ s, Done a s.
Definition raise {A} (e : exn) : M A := λ s, Raised e s.
Definition bind {A B} (m : M A) (k : A → M B) : M B :=
  λ s, match m s with
       | Done a s' => k a s'
       | Raised e s' => Raised e s'
       | OutOfFuel => OutOfFuel
       end.
Definition get_state : M state := λ s, Done s s.
Definition modify (f : state → state) : M unit := λ s, Done tt (f s).

Declare Scope py_scope.
Delimit Scope py_scope with py.
Notation "'do' x <- m ; k" := (bind m (λ x, k))
  (at level 10, x pattern, m at level 100, k at level 200) : py_scope.
Notation "m ;; k" := (bind m (λ _, k))
  (at level 100, k at level 200, right associativity) : py_scope.
Local Open Scope py_scope.

(** Indexing that raises IndexError out of range. *)
Definition index_or_raise {A} (l : list A) (i : Z) : M A :=
  match Py.index l i with
  | Some x => ret x
  | None => raise IndexError
  end.

(** ** The Glue Extractor and Address Cache: [dns_caching] *)

(** Body of [for a in type_is]; [address] is the loop-carried local. *)
Definition dns_caching_body (type_is : list string) (a : string)
    (address : list string) : M (list string) :=
  if decide (a = "A") then
    do first <- index_or_raise type_is 0;
    let v := Py.split_on "." first in
    do last <- index_or_raise type_is (-1);
    let address := [last] in
    do key <- index_or_raise v (-2);
    do s <- get_state;
    match dns_cache s !! key with
    | None =>
        modify (set_dns_cache (<[key := address]> (dns_cache s)));;
        ret address
    | Some known =>
        do a0 <- index_or_raise address 0;
        if decide (a0 ∈ known) then ret address
        else
          modify (set_dns_cache (<[key := known ++ address]> (dns_cache s)));;
          ret address
    end
  else ret address.

Fixpoint dns_caching_loop (type_is : list string) (todo : list string)
    (address : list string) : M (list string) :=
  match todo with
  | [] => ret address
  | a :: todo' =>
      do address' <- dns_caching_body type_is a address;
      dns_caching_loop type_is todo' address'
  end.

Definition dns_caching (text : string) : M (list string) :=
  let type_is := Py.split_ws text in
  dns_caching_loop type_is type_is [].

(** ** The Iterative Resolution Engine: [_recurlookup] *)

(** How a loop body leaves: fall through to the next iteration, or
    [return r] out of the enclosing function. *)
Inductive flow :=
| Next
| Return (r : option message).

Section Resolver.

(** [dns.query.udp(query, server, 3)] given the calls made before it;
    [None] is a timeout or any other exception, which the [try] swallows.
    Name parsing by the library is taken to succeed. *)
Variable udp : list udp_call → udp_call → option message.

(** [str(dns.name.from_text(name))] *)
Variable from_text : string → string.

(** [dns.message.make_query(target_name, qtype)] *)
Definition make_query (target_name : string) (qtype : Z) : string * Z :=
  (target_name, qtype).

Definition query_udp (outbound_query : string * Z) (server : string)
  : M (option message) :=
  λ s, let c := UdpCall outbound_query.1 outbound_query.2 server in
       Done (udp (udp_log s) c) (log_call c s).

Section Loops.

(** The recursive call, one unit of budget down. *)
Variable recur : string → Z → list string → M (option message).

(** [for answer in authority_resp.answer] (lines 133-138) *)
Fixpoint ns_answer_loop (target_name : string) (qtype : Z)
    (answers : list rrset) : M flow :=
  match answers with
  | [] => ret Next
  | answer :: rest =>
      do addr_of_ns_recrds <- dns_caching (rr_str answer);
      do response_for_ns <- recur target_name qtype addr_of_ns_recrds;
      match response_for_ns with
      | Some r => ret (Return (Some r))
      | None => ns_answer_loop target_name qtype rest
      end
  end.

(** [for host_name in ns_records] (lines 129-138) *)
Fixpoint host_loop (target_name : string) (qtype : Z)
    (ns_records : list string) : M flow :=
  match ns_records with
  | [] => ret Next
  | host_name :: rest =>
      do authority_resp <- recur host_name 1 ROOT_SERVERS;
      do f <- match authority_resp with
              | Some resp =>
                  ns_answer_loop target_name qtype (answer resp)
              | None => ret Next
              end;
      match f with
      | Return r => ret (Return r)
      | Next => host_loop target_name qtype rest
      end
  end.

(** [for auth in list_of_authority_servers] (lines 124-127) *)
Fixpoint auth_loop (auths : list rdata) (ns_records : list string)
  : list string :=
  match auths with
  | [] => ns_records
  | auth :: rest =>
      if decide (rdtype auth = 6) then auth_loop rest ns_records
      else auth_loop rest (ns_records ++ [Py.drop_last (rd_str auth)])
  end.

(** [for list_of_authority_servers in response.authority]
    (lines 123-138); [ns_records] persists across iterations. *)
Fixpoint authority_loop (target_name : string) (qtype : Z)
    (sections : list rrset) (ns_records : list string) : M flow :=
  match sections with
  | [] => ret Next
  | list_of_authority_servers :: rest =>
      let ns_records :=
        auth_loop (rr_items list_of_authority_servers) ns_records in
      do f <- host_loop target_name qtype ns_records;
      match f with
      | Return r => ret (Return r)
      | Next => authority_loop target_name qtype rest ns_records
      end
  end.

(** [for additional in response.additional] (lines 141-142) *)
Fixpoint additional_loop (sections : list rrset)
    (list_of_addresses : list string) : M (list string) :=
  match sections with
  | [] => ret list_of_addresses
  | additional :: rest =>
      do addr <- dns_caching (rr_str additional);
      additional_loop rest (list_of_addresses ++ addr)
  end.

(** [for answer in answers] (lines 147-154); the local [target_name]
    is overwritten at every record and handed back. *)
Fixpoint answer_loop (response : message) (qtype : Z)
    (answers : list rdata) (target_name : string) : M (flow * string) :=
  match answers with
  | [] => ret (Next, target_name)
  | answer :: rest =>
      let target_name := Py.drop_last (rd_str answer) in
      if decide (rdtype answer = qtype)
      then ret (Return (Some response), target_name)
      else if decide (rdtype answer = 5) then
        do r <- recur target_name qtype ROOT_SERVERS;
        ret (Return r, target_name)
      else answer_loop response qtype rest target_name
  end.

(** [for answers in response.answer] (lines 146-154) *)
Fixpoint answers_loop (response : message) (qtype : Z)
    (sections : list rrset) (target_name : string) : M (flow * string) :=
  match sections with
  | [] => ret (Next, target_name)
  | answers :: rest =>
      do ft <- answer_loop response qtype (rr_items answers) target_name;
      match ft with
      | (Return r, target_name) => ret (Return r, target_name)
      | (Next, target_name) =>
          answers_loop response qtype rest target_name
      end
  end.

(** Body of [for server in servers_list] (lines 109-154).  The query
    was built once, before the loop; a parsed message is always truthy,
    so [if not response] never fires on a received response. *)
Definition server_body (outbound_query : string * Z) (qtype : Z)
    (server : string) (target_name : string) : M (flow * string) :=
  do response <- query_udp outbound_query server;
  match response with
  | None => ret (Next, target_name)
  | Some response =>
      match answer response with
      | [] =>
          match additional response with
          | [] =>
              do f <- authority_loop target_name qtype
                        (authority response) [];
              ret (f, target_name)
          | _ :: _ =>
              do list_of_addresses <-
                 additional_loop (additional response) [];
              do r <- recur target_name qtype list_of_addresses;
              ret (Return r, target_name)
          end
      | _ :: _ =>
          answers_loop response qtype (answer response) target_name
      end
  end.

(** [for server in servers_list]; falling off the end returns None. *)
Fixpoint server_loop (outbound_query : string * Z) (qtype : Z)
    (servers : list string) (target_name : string) : M (option message) :=
  match servers with
  | [] => ret None
  | server :: rest =>
      do ft <- server_body outbound_query qtype server target_name;
      match ft with
      | (Return r, _) => ret r
      | (Next, target_name) =>
          server_loop outbound_query qtype rest target_name
      end
  end.

End Loops.

Fixpoint _recurlookup (fuel : nat) (target_name : string) (qtype : Z)
    (servers_list : list string) : M (option message) :=
  match fuel with
  | O => λ _, OutOfFuel
  | S fuel' =>
      match servers_list with
      | [] => ret None
      | _ :: _ =>
          let outbound_query := make_query target_name qtype in
          server_loop (_recurlookup fuel') outbound_query qtype
            servers_list target_name
      end
  end.

(** ** The Query Router: [lookup] *)

Definition lookup (fuel : nat) (target_name : string) (qtype : Z)
  : M (option message) :=
  let first_req := Py.split_on "." target_name in
  do tld_domain <- index_or_raise first_req (-2);
  do s <- get_state;
  match dns_cache s !! tld_domain with
  | Some cached_address => _recurlookup fuel target_name qtype cached_address
  | None => _recurlookup fuel target_name qtype ROOT_SERVERS
  end.

(** ** The Answer Aggregator: [collect_results] *)

(** [for answer in answers] of the CNAME lookup (lines 57-61) *)
Fixpoint cname_answer_loop (name : string) (answers : list rdata)
    (cnames : list cname_entry) (target_name : string)
  : list cname_entry * string :=
  match answers with
  | [] => (cnames, target_name)
  | answer :: rest =>
      cname_answer_loop name rest (cnames ++ [CnameEntry answer name])
        (Py.drop_last (rd_str answer))
  end.

(** [for answers in response.answer] of the CNAME lookup (lines 56-61) *)
Fixpoint cname_loop (name : string) (sections : list rrset)
    (cnames : list cname_entry) (target_name : string)
  : list cname_entry * string :=
  match sections with
  | [] => (cnames, target_name)
  | answers :: rest =>
      let '(cnames, target_name) :=
        cname_answer_loop name (rr_items answers) cnames target_name in
      cname_loop name rest cnames target_name
  end.

(** The A and AAAA loops (lines 67-71 and 77-82) differ in the type
    code tested, 1 or 28. *)
Fixpoint addr_answer_loop (code : Z) (a_name : string)
    (answers : list rdata) (records : list addr_entry) : list addr_entry :=
  match answers with
  | [] => records
  | answer :: rest =>
      if decide (rdtype answer = code)
      then addr_answer_loop code a_name rest
             (records ++ [AddrEntry a_name (rd_str answer)])
      else addr_answer_loop code a_name rest records
  end.

Fixpoint addr_loop (code : Z) (sections : list rrset)
    (records : list addr_entry) : list addr_entry :=
  match sections with
  | [] => records
  | answers :: rest =>
      addr_loop code rest
        (addr_answer_loop code (rr_name answers) (rr_items answers) records)
  end.

(** The MX loop (lines 88-94) *)
Fixpoint mx_answer_loop (mx_name : string) (answers : list rdata)
    (mxrecords : list mx_entry) : list mx_entry :=
  match answers with
  | [] => mxrecords
  | answer :: rest =>
      if decide (rdtype answer = 15)
      then mx_answer_loop mx_name rest
             (mxrecords
                ++ [MxEntry mx_name (preference answer) (exchange answer)])
      else mx_answer_loop mx_name rest mxrecords
  end.

Fixpoint mx_loop (sections : list rrset) (mxrecords : list mx_entry)
  : list mx_entry :=
  match sections with
  | [] => mxrecords
  | answers :: rest =>
      mx_loop rest
        (mx_answer_loop (rr_name answers) (rr_items answers) mxrecords)
  end.

Definition collect_results (fuel : nat) (name : string) : M full_response :=
  let target_name := from_text name in
  do response <- lookup fuel target_name 5;
  let '(cnames, target_name) :=
    match response with
    | Some response => cname_loop name (answer response) [] target_name
    | None => ([], target_name)
    end in
  do response <- lookup fuel target_name 1;
  let arecords :=
    match response with
    | Some response => addr_loop 1 (answer response) []
    | None => []
    end in
  do response <- lookup fuel target_name 28;
  let aaaarecords :=
    match response with
    | Some response => addr_loop 28 (answer response) []
    | None => []
    end in
  do response <- lookup fuel target_name 15;
  let mxrecords :=
    match response with
    | Some response => mx_loop (answer response) []
    | None => []
    end in
  ret (FullResponse cnames arecords aaaarecords mxrecords).

(** ** The command-line layer: [print_results] and [main] *)

Definition format_CNAME (e : cname_entry) : string :=
  cname_alias e +:+ " is an alias for " +:+ rd_str (cname_name e).
Definition format_A (e : addr_entry) : string :=
  addr_name e +:+ " has address " +:+ addr_address e.
Definition format_AAAA (e : addr_entry) : string :=
  addr_name e +:+ " has IPv6 address " +:+ addr_address e.
Definition format_MX (e : mx_entry) : string :=
  mx_name e +:+ " mail is handled by "
    +:+ Py.str_of_int (mx_preference e) +:+ " " +:+ mx_exchange e.

Fixpoint print_all (lines : list string) : M unit :=
  match lines with
  | [] => ret tt
  | l :: rest => modify (print_line l);; print_all rest
  end.

Definition print_results (results : full_response) : M unit :=
  print_all (map format_CNAME (fr_CNAME results));;
  print_all (map format_A (fr_A results));;
  print_all (map format_AAAA (fr_AAAA results));;
  print_all (map format_MX (fr_MX results)).

(** [for i in program_args.name] (lines 206-209) *)
Fixpoint dedup_loop (names : list string) (new_list : list string)
  : list string :=
  match names with
  | [] => new_list
  | i :: rest =>
      if decide (i ∈ new_list) then dedup_loop rest new_list
      else dedup_loop rest (new_list ++ [i])
  end.

(** Body of [for a_domain_name in new_list] (lines 211-215) *)
Definition main_body (fuel : nat) (a_domain_name : string) : M unit :=
  do s <- get_state;
  match domain_cache s !! a_domain_name with
  | Some cached => print_results cached
  | None =>
      do results <- collect_results fuel a_domain_name;
      do s' <- get_state;
      modify (set_domain_cache
                (<[a_domain_name := results]> (domain_cache s')));;
      print_results results
  end.

Fixpoint main_loop (fuel : nat) (new_list : list string) : M unit :=
  match new_list with
  | [] => ret tt
  | a_domain_name :: rest =>
      main_body fuel a_domain_name;; main_loop fuel rest
  end.

Definition main (fuel : nat) (names : list string) : M unit :=
  main_loop fuel (dedup_loop names []).

End Resolver.

(** * Notions of the statements *)

(** The cache contract in the specification's words: [merge] adds the
    address to the zone's set if absent, creating the set if the zone is
    unseen. *)
Definition spec_merge (zone address : string)
    (cache : gmap string (list string)) : gmap string (list string) :=
  match cache !! zone with
  | None => <[zone := [address]]> cache
  | Some known =>
      if decide (address ∈ known) then cache
      else <[zone := known ++ [address]]> cache
  end.

Definition merged (zone address : string) (s : state) : state :=
  set_dns_cache (spec_merge zone address (dns_cache s)) s.

Definition cache_le (c c' : gmap string (list string)) : Prop :=
  ∀ k l, c !! k = Some l → ∃ l', c' !! k = Some l' ∧ l `prefix_of` l'.

(** No zone's list holds an address twice. *)
Definition cache_nodup (c : gmap string (list string)) : Prop :=
  ∀ k l, c !! k = Some l → NoDup l.

Record extends (s s' : state) : Prop := Extends {
  ext_cache : cache_le (dns_cache s) (dns_cache s');
  ext_nodup : cache_nodup (dns_cache s) → cache_nodup (dns_cache s');
  ext_domain : domain_cache s' = domain_cache s;
  ext_log : udp_log s `prefix_of` udp_log s';
  ext_stdout : stdout s' = stdout s
}.

(** A computation only ever extends the state, however it ends. *)
Definition grows {A} (m : M A) : Prop :=
  ∀ s, match m s with
       | Done _ s' | Raised _ s' => extends s s'
       | OutOfFuel => True
       end.

(** Every candidate of the list was tried and its turn fell through, from
    local name [t] and state [s] to local name [t'] and state [s']. *)
Inductive exhausted (udp : list udp_call → udp_call → option message)
    (recur : string → Z → list string → M (option message))
    (oq : string * Z) (qtype : Z)
  : list string → string → string → state → state → Prop :=
| exhausted_nil t s : exhausted udp recur oq qtype [] t t s s
| exhausted_cons server rest t t1 t2 s s1 s2 :
    server_body udp recur oq qtype server t s = Done (Next, t1) s1 →
    exhausted udp recur oq qtype rest t1 t2 s1 s2 →
    exhausted udp recur oq qtype (server :: rest) t t2 s s2.

(** The transport fails for each call of the list, made in a row. *)
Fixpoint all_fail (udp : list udp_call → udp_call → option message)
    (log : list udp_call) (calls : list udp_call) : Prop :=
  match calls with
  | [] => True
  | c :: rest => udp log c = None ∧ all_fail udp (log ++ [c]) rest
  end.

Definition calls_to (oq : string * Z) (servers : list string)
  : list udp_call :=
  map (UdpCall oq.1 oq.2) servers.

Definition log_calls (calls : list udp_call) (s : state) : state :=
  State (dns_cache s) (domain_cache s) (udp_log s ++ calls) (stdout s).

(** A record that ends the walk for query type [q]: one of the requested
    type, or a CNAME. *)
Definition relevant (q : Z) (a : rdata) : bool :=
  bool_decide (rdtype a = q) || bool_decide (rdtype a = 5).

(** The local [target_name] after a walk that met no relevant record. *)
Definition clobbered (answers : list rdata) (t : string) : string :=
  match last answers with
  | Some a => Py.drop_last (rd_str a)
  | None => t
  end.

(** The response answers the query: walking its records in order, the
    first relevant one has the requested type. *)
Definition answers_query (q : Z) (response : message) : Prop :=
  ∃ pre a post,
    flat_map rr_items (answer response) = pre ++ a :: post
    ∧ Forall (λ x, relevant q x = false) pre
    ∧ rdtype a = q.

(** What the walk does at the first relevant record. *)
Definition decided (recur : string → Z → list string → M (option message))
    (response : message) (q : Z) (a : rdata) : M (flow * string) :=
  let t := Py.drop_last (rd_str a) in
  if decide (rdtype a = q) then ret (Return (Some response), t)
  else bind (recur t q ROOT_SERVERS) (λ r, ret (Return r, t)).

(** [P] holds of whatever value the computation returns. *)
Definition post {A} (P : A → Prop) (m : M A) : Prop :=
  ∀ s a s', m s = Done a s' → P a.

Definition answer_or_absent (q : Z) (r : option message) : Prop :=
  match r with
  | Some response => answers_query q response
  | None => True
  end.

Definition flow_answers (q : Z) (f : flow) : Prop :=
  match f with
  | Return r => answer_or_absent q r
  | Next => True
  end.

Definition returned_answers (q : Z) (o : outcome (option message)) : Prop :=
  match o with
  | Done r _ => answer_or_absent q r
  | Raised _ _ | OutOfFuel => True
  end.

(** The text reads as an address record of zone label [zone] with address
    [address]: a token ['A'], the label before the last of the first
    token, and the last token. *)
Definition glue_record (text zone address : string) : Prop :=
  "A" ∈ Py.split_ws text
  ∧ ∃ first,
      Py.index (Py.split_ws text) 0 = Some first
      ∧ Py.index (Py.split_on "." first) (-2) = Some zone
      ∧ Py.index (Py.split_ws text) (-1) = Some address.

Definition occurrences (a : string) (l : list string) : nat :=
  length (filter (λ x, x = a) l).

(** Host names read off records, skipping those of type [skip]. *)
Definition ns_hostnames (skip : Z) (auths : list rdata) : list string :=
  map (λ auth, Py.drop_last (rd_str auth))
    (filter (λ auth, rdtype auth ≠ skip) auths).

(** The order in which the nested loops visit host names: after each
    authority group, every name gathered so far. *)
Fixpoint visit_order (sections : list rrset) (ns_records : list string)
  : list string :=
  match sections with
  | [] => []
  | rs :: rest =>
      let ns_records := ns_records ++ ns_hostnames 6 (rr_items rs) in
      ns_records ++ visit_order rest ns_records
  end.



Definition print_lines (lines : list string) (s : state) : state :=
  State (dns_cache s) (domain_cache s) (udp_log s) (stdout s ++ lines).

(** The lines [print_results] prints for an aggregate. *)
Definition results_lines (results : full_response) : list string :=
  map format_CNAME (fr_CNAME results)
  ++ map format_A (fr_A results)
  ++ map format_AAAA (fr_AAAA results)
  ++ map format_MX (fr_MX results).

(** Computing a name's aggregate unconditionally: resolve, store, print. *)
Definition compute_body (udp : list udp_call → udp_call → option message)
    (from_text : string → string) (fuel : nat) (name : string) : M unit :=
  bind (collect_results udp from_text fuel name) (λ results,
  bind get_state (λ s',
  bind (modify (set_domain_cache (<[name := results]> (domain_cache s'))))
    (λ _, print_results results))).

Fixpoint compute_each (udp : list udp_call → udp_call → option message)
    (from_text : string → string) (fuel : nat) (names : list string)
  : M unit :=
  match names with
  | [] => ret tt
  | name :: rest =>
      bind (compute_body udp from_text fuel name)
        (λ _, compute_each udp from_text fuel rest)
  end.

(** After a run, the name is cached and processing it again prints the
    cached aggregate and does nothing else, whatever the budget. *)
Definition memoized (udp : list udp_call → udp_call → option message)
    (from_text : string → string) (s' : state) (name : string) : Prop :=
  ∃ results,
    domain_cache s' !! name = Some results
    ∧ ∀ fuel', main_body udp from_text fuel' name s'
               = Done tt (print_lines (results_lines results) s').

(** One outcome is the other, unless the budget ran out first. *)
Definition le_outcome {A} (o o' : outcome A) : Prop :=
  o = OutOfFuel ∨ o = o'.

Definition refines {A} (m m' : M A) : Prop :=
  ∀ s, le_outcome (m s) (m' s).

(** What a whole run of [main] may change: the Address Cache as under
    [extends], the aggregate cache by new keys only, the transport history
    and the output by appending. *)
Record run_extends (s s' : state) : Prop := RunExtends {
  run_cache : cache_le (dns_cache s) (dns_cache s');
  run_nodup : cache_nodup (dns_cache s) → cache_nodup (dns_cache s');
  run_domain :
    ∀ k v, domain_cache s !! k = Some v → domain_cache s' !! k = Some v;
  run_log : udp_log s `prefix_of` udp_log s';
  run_stdout : stdout s `prefix_of` stdout s'
}.

Definition run_grows {A} (m : M A) : Prop :=
  ∀ s, match m s with
       | Done _ s' | Raised _ s' => run_extends s s'
       | OutOfFuel => True
       end.

(** The response, if any, was received after state [s] and by state [s']
    from a transport call for query type [q]. *)
Definition heard_since (udp : list udp_call → udp_call → option message)
    (q : Z) (s : state) (r : option message) (s' : state) : Prop :=
  match r with
  | Some response =>
      ∃ log c rest,
        udp_log s' = log ++ c :: rest
        ∧ udp_log s `prefix_of` log
        ∧ udp log c = Some response
        ∧ call_qtype c = q
  | None => True
  end.

Definition flow_heard_since (udp : list udp_call → udp_call → option message)
    (q : Z) (s : state) (f : flow) (s' : state) : Prop :=
  match f with
  | Return r => heard_since udp q s r s'
  | Next => True
  end.

(** The postcondition [P], of the start state, the value and the end
    state, holds whenever the computation returns. *)
Definition post_rel {A} (P : state → A → state → Prop) (m : M A) : Prop :=
  ∀ s a s', m s = Done a s' → P s a s'.

(** The entries the A and AAAA loops build from an answer section. *)
Definition addr_entries (code : Z) (sections : list rrset) : list addr_entry :=
  flat_map (λ rs, map (λ answer, AddrEntry (rr_name rs) (rd_str answer))
                    (filter (λ answer, rdtype answer = code) (rr_items rs)))
    sections.

(** The entries the MX loop builds from an answer section. *)
Definition mx_entries (sections : list rrset) : list mx_entry :=
  flat_map (λ rs, map (λ answer, MxEntry (rr_name rs) (preference answer)
                                   (exchange answer))
                    (filter (λ answer, rdtype answer = 15) (rr_items rs)))
    sections.

(** An alias chain of length [n] for a query type other than CNAME: at
    each level the candidates before the responding one fail at
    transport and the responding one's first record of the requested type
    or CNAME is a CNAME, whose target is then asked of the root servers;
    at length 0 the responding candidate answers the query. *)
Inductive alias_chain (udp : list udp_call → udp_call → option message)
    (qtype : Z)
  : nat → string → list string → state → message → state → Prop :=
| alias_end t tried server rest s response :
    let s1 := log_calls (calls_to (t, qtype) tried) s in
    all_fail udp (udp_log s) (calls_to (t, qtype) tried) →
    udp (udp_log s1) (UdpCall t qtype server) = Some response →
    answers_query qtype response →
    alias_chain udp qtype 0 t (tried ++ server :: rest) s response
      (log_call (UdpCall t qtype server) s1)
| alias_step n t tried server rest s response pre a post final s4 :
    let s1 := log_calls (calls_to (t, qtype) tried) s in
    all_fail udp (udp_log s) (calls_to (t, qtype) tried) →
    udp (udp_log s1) (UdpCall t qtype server) = Some response →
    flat_map rr_items (answer response) = pre ++ a :: post →
    Forall (λ x, relevant qtype x = false) pre →
    rdtype a = 5 →
    qtype ≠ 5 →
    alias_chain udp qtype n (Py.drop_last (rd_str a)) ROOT_SERVERS
      (log_call (UdpCall t qtype server) s1) final s4 →
    alias_chain udp qtype (S n) t (tried ++ server :: rest) s final s4.

(** The first result that is not absent among the paths of a list, run
    in order; absent when no path gives one. *)
Fixpoint first_found {X} (path : X → M (option message)) (xs : list X)
  : M (option message) :=
  match xs with
  | [] => ret None
  | x :: rest =>
      bind (path x) (λ r,
        match r with
        | Some found => ret (Some found)
        | None => first_found path rest
        end)
  end.

(** The path through one address record found for a name server, in the
    words of the claim: feed it through the Glue Extractor, then resolve
    the name and type asked with the address set obtained. *)
Definition address_path
    (resolve : string → Z → list string → M (option message))
    (target_name : string) (qtype : Z) (found : rrset)
  : M (option message) :=
  bind (dns_caching (rr_str found))
    (λ address_set, resolve target_name qtype address_set).

(** The paths through one name-server host name, in the words of the
    claim: resolve its address with query type A (1) from the root
    servers, whatever the type asked, then take the paths through the
    answers of that resolution; no path when it is absent. *)
Definition host_path
    (resolve : string → Z → list string → M (option message))
    (target_name : string) (qtype : Z) (host_name : string)
  : M (option message) :=
  bind (resolve host_name 1 ROOT_SERVERS) (λ sub,
    match sub with
    | Some authority_resp =>
        first_found (address_path resolve target_name qtype)
          (answer authority_resp)
    | None => ret None
    end).

(** ** A small test network *)

Module Net.

Definition A_rec (name addr : string) : rrset :=
  RRset name [Rdata 1 addr 0 ""] (name +:+ " 3600 IN A " +:+ addr).
Definition NS_rec (zone host : string) : rrset :=
  RRset zone [Rdata 2 host 0 ""] (zone +:+ " 3600 IN NS " +:+ host).
Definition CNAME_rec (name tgt : string) : rrset :=
  RRset name [Rdata 5 tgt 0 ""] (name +:+ " 3600 IN CNAME " +:+ tgt).

Definition from_text (name : string) : string := name +:+ ".".

(** The root refers [example.com.] to [ns.example.com.] with glue; the
    name server answers A queries. *)
Definition glue_net (log : list udp_call) (c : udp_call) : option message :=
  if decide (call_server c = "198.41.0.4") then
    Some (Message [] [NS_rec "example.com." "ns.example.com."]
            [A_rec "ns.example.com." "10.0.0.1"])
  else if decide (call_server c = "10.0.0.1") then
    if decide (call_qtype c = 1) then
      Some (Message [A_rec "example.com." "93.184.216.34"] [] [])
    else Some (Message [] [] [])
  else None.

(** Nothing answers. *)
Definition dead_net (log : list udp_call) (c : udp_call) : option message :=
  None.

(** [10.0.0.1] answers the A query for [www.example.com.] with the alias
    followed by the address of its target; the first root server knows
    the target. *)
Definition alias_response : message :=
  Message [CNAME_rec "www.example.com." "example.com.";
           A_rec "example.com." "93.184.216.34"] [] [].

Definition alias_net (log : list udp_call) (c : udp_call) : option message :=
  if decide (call_server c = "10.0.0.1") then
    if decide (call_name c = "www.example.com.") then Some alias_response
    else None
  else if decide (call_server c = "198.41.0.4") then
    if decide (call_name c = "example.com") then
      Some (Message [A_rec "example.com." "93.184.216.34"] [] [])
    else None
  else None.

(** A referral without glue whose authority section holds a group with
    a record of type 5 (CNAME) and a group with a record of type 6 (SOA). *)
Definition odd_referral : message :=
  Message []
    [RRset "example.com." [Rdata 5 "alias.example.com." 0 ""]
       "example.com. 3600 IN CNAME alias.example.com.";
     RRset "example.com."
       [Rdata 6 "ns1.example.com. admin.example.com. 1 7200 900 86400 60"
          0 ""]
       "example.com. 3600 IN SOA ns1.example.com. admin.example.com. 1 7200 900 86400 60"]
    [].

Definition odd_net (log : list udp_call) (c : udp_call) : option message :=
  if decide (call_name c = "example.com.") then Some odd_referral else None.

(** A referral without glue to [ns.example.com.], whose address the
    first root server gives; that server answers for [example.com.]. *)
Definition glueless_referral_msg : message :=
  Message [] [NS_rec "example.com." "ns.example.com."] [].

Definition glueless_net (log : list udp_call) (c : udp_call)
  : option message :=
  if decide (call_server c = "198.41.0.4") then
    if decide (call_name c = "example.com.") then Some glueless_referral_msg
    else if decide (call_name c = "ns.example.com") then
      Some (Message [A_rec "ns.example.com." "93.184.216.34"] [] [])
    else None
  else if decide (call_server c = "93.184.216.34") then
    Some (Message [A_rec "example.com." "93.184.216.34"] [] [])
  else None.

(** [10.0.0.8] answers an A query with an MX record only; [10.0.0.9]
    refers to [ns.example.com.] with glue; that server answers A
    queries for [example.com.]. *)
Definition clobber_net (log : list udp_call) (c : udp_call)
  : option message :=
  if decide (call_server c = "10.0.0.8") then
    Some (Message
            [RRset "example.com." [Rdata 15 "10 mail.example.com." 10
                                     "mail.example.com."]
               "example.com. 3600 IN MX 10 mail.example.com."] [] [])
  else if decide (call_server c = "10.0.0.9") then
    Some (Message [] [NS_rec "example.com." "ns.example.com."]
            [A_rec "ns.example.com." "10.0.0.1"])
  else if decide (call_server c = "10.0.0.1") then
    if decide (call_name c = "example.com.") then
      Some (Message [A_rec "example.com." "93.184.216.34"] [] [])
    else None
  else None.


(** The first root server answers the CNAME query for
    [www.example.com.] with the alias and, after it, an address record. *)
Definition mixed_net (log : list udp_call) (c : udp_call)
  : option message :=
  if decide (call_name c = "www.example.com.") then
    if decide (call_qtype c = 5) then
      Some (Message [CNAME_rec "www.example.com." "example.com.";
                     A_rec "example.com." "93.184.216.34"] [] [])
    else None
  else None.

(** Every server denies the name: an SOA record in the authority
    section and nothing else. *)
Definition nodata_net (log : list udp_call) (c : udp_call)
  : option message :=
  Some (Message []
          [RRset "example.com."
             [Rdata 6 "ns1.example.com. admin.example.com. 1 7200 900 86400 60"
                0 ""]
             "example.com. 60 IN SOA ns1.example.com. admin.example.com. 1 7200 900 86400 60"]
          []).

(** [10.0.0.9] refers with IPv6 glue only; [10.0.0.1] would answer. *)
Definition v6_glue_net (log : list udp_call) (c : udp_call)
  : option message :=
  if decide (call_server c = "10.0.0.9") then
    Some (Message [] [NS_rec "example.com." "ns.example.com."]
            [RRset "ns.example.com." [Rdata 28 "2001:db8::1" 0 ""]
               "ns.example.com. 3600 IN AAAA 2001:db8::1"])
  else if decide (call_server c = "10.0.0.1") then
    Some (Message [A_rec "example.com." "93.184.216.34"] [] [])
  else None.

(** The first root server answers every CNAME query with an alias to the
    single-label name [localhost.]. *)
Definition single_label_net (log : list udp_call) (c : udp_call)
  : option message :=
  if decide (call_server c = "198.41.0.4") then
    if decide (call_qtype c = 5) then
      Some (Message [CNAME_rec (call_name c) "localhost."] [] [])
    else None
  else None.

End Net.

(** * Properties *)

(** ** Python primitives *)

Lemma append_cons c (a b : string) : String c a +:+ b = String c (a +:+ b).
Proof. reflexivity. Qed.

Lemma append_nil_l (s : string) : "" +:+ s = s.
Proof. reflexivity. Qed.

Lemma append_nil_r (s : string) : s +:+ "" = s.
Proof.
  induction s as [|c s IH]; [done |]. rewrite append_cons. by f_equal.
Qed.

Lemma append_assoc (a b c : string) : (a +:+ b) +:+ c = a +:+ b +:+ c.
Proof.
  induction a as [|x a IH]; [done |]. rewrite !append_cons. by f_equal.
Qed.

(** A stretch without the separator is absorbed into the current field. *)
Lemma split_on_from_field sep w rest word :
  Py.contains sep w = false →
  Py.split_on_from sep (w +:+ rest) word
  = Py.split_on_from sep rest (word +:+ w).
Proof.
  revert word. induction w as [|c w IH]; intros word Hw.
  - by rewrite append_nil_r.
  - rewrite append_cons. cbn [Py.split_on_from Py.contains] in *.
    destruct (decide (c = sep)); [done |].
    rewrite IH by done. by rewrite append_assoc.
Qed.

(** [sep.join(l).split(sep) == l] for separator-free, non-empty [l]. *)
Lemma split_on_join sep (l : list string) :
  l ≠ [] →
  Forall (λ w, Py.contains sep w = false) l →
  Py.split_on sep (Py.join (String sep "") l) = l.
Proof.
  unfold Py.split_on. intros Hne Hl.
  induction Hl as [|w l Hw Hl IH]; [done |].
  destruct l as [|w' l].
  - simpl. rewrite <- (append_nil_r w) at 1.
    by rewrite split_on_from_field.
  - change (Py.join (String sep "") (w :: w' :: l))
      with (w +:+ String sep "" +:+ Py.join (String sep "") (w' :: l)).
    rewrite split_on_from_field by done.
    rewrite append_cons, !append_nil_l. cbn [Py.split_on_from].
    destruct (decide (sep = sep)); [| done].
    by rewrite IH.
Qed.

Lemma index_neg (A : Type) (l : list A) (k : nat) :
  (0 < k ≤ length l)%nat →
  Py.index l (- Z.of_nat k) = l !! (length l - k)%nat.
Proof.
  intros Hk. unfold Py.index.
  destruct (Z.ltb_spec (- Z.of_nat k) 0); [| lia].
  destruct (Z.leb_spec 0 (- Z.of_nat k + Z.of_nat (length l))); [| lia].
  destruct (Z.ltb_spec (- Z.of_nat k + Z.of_nat (length l))
              (Z.of_nat (length l))); [| lia].
  simpl. f_equal. lia.
Qed.

Lemma index_neg_short (A : Type) (l : list A) (k : nat) :
  (length l < k)%nat → Py.index l (- Z.of_nat k) = None.
Proof.
  intros Hk. unfold Py.index.
  destruct (Z.ltb_spec (- Z.of_nat k) 0); [| lia].
  destruct (Z.leb_spec 0 (- Z.of_nat k + Z.of_nat (length l))); [lia |].
  done.
Qed.

(** The label before the last of a dotted name is what [v[-2]] reads. *)
Lemma index_second_to_last (labels : list string) (key last : string) :
  Py.index (labels ++ [key; last]) (-2) = Some key.
Proof.
  change (-2) with (- Z.of_nat 2).
  rewrite index_neg by (rewrite length_app; simpl; lia).
  rewrite length_app. simpl.
  replace (length labels + 2 - 2)%nat with (length labels + 0)%nat by lia.
  by rewrite lookup_app_r, Nat.add_0_r, Nat.sub_diag by lia.
Qed.

(** ** The monad *)

Lemma bind_Done {A B} (m : M A) (k : A → M B) s a s' :
  m s = Done a s' → bind m k s = k a s'.
Proof. unfold bind. by intros ->. Qed.

Lemma bind_Raised {A B} (m : M A) (k : A → M B) s e s' :
  m s = Raised e s' → bind m k s = Raised e s'.
Proof. unfold bind. by intros ->. Qed.

Lemma set_dns_cache_same s : set_dns_cache (dns_cache s) s = s.
Proof. by destruct s. Qed.

(** ** The Address Cache and the Glue Extractor *)

Lemma spec_merge_lookup zone address cache :
  ∃ l, spec_merge zone address cache !! zone = Some l ∧ address ∈ l.
Proof.
  unfold spec_merge. destruct (cache !! zone) as [known|] eqn:Hz.
  - destruct (decide (address ∈ known)).
    + eauto.
    + exists (known ++ [address]). rewrite lookup_insert_eq.
      split; [done | set_solver].
  - exists [address]. rewrite lookup_insert_eq. split; [done | set_solver].
Qed.

Lemma spec_merge_idemp zone address cache :
  spec_merge zone address (spec_merge zone address cache)
  = spec_merge zone address cache.
Proof.
  destruct (spec_merge_lookup zone address cache) as (l & Hl & Hin).
  unfold spec_merge at 1. rewrite Hl.
  by destruct (decide (address ∈ l)).
Qed.

Lemma merged_idemp zone address s :
  merged zone address (merged zone address s) = merged zone address s.
Proof.
  unfold merged. destruct s; simpl. unfold set_dns_cache; simpl.
  by rewrite spec_merge_idemp.
Qed.

(** One pass of the token loop at a token ['A']. *)
Lemma dns_caching_body_A type_is first last key address s :
  Py.index type_is 0 = Some first →
  Py.index type_is (-1) = Some last →
  Py.index (Py.split_on "." first) (-2) = Some key →
  dns_caching_body type_is "A" address s = Done [last] (merged key last s).
Proof.
  intros H0 H1 H2. unfold dns_caching_body.
  destruct (decide ("A" = "A")); [| done].
  unfold index_or_raise, bind, ret, get_state, modify, merged, spec_merge.
  rewrite H0, H1, H2. simpl.
  destruct (dns_cache s !! key) as [known|]; [| done].
  simpl. destruct (decide (last ∈ known)); [| done].
  by rewrite set_dns_cache_same.
Qed.

Lemma dns_caching_body_A_raises type_is first last address s :
  Py.index type_is 0 = Some first →
  Py.index type_is (-1) = Some last →
  Py.index (Py.split_on "." first) (-2) = None →
  dns_caching_body type_is "A" address s = Raised IndexError s.
Proof.
  intros H0 H1 H2. unfold dns_caching_body.
  destruct (decide ("A" = "A")); [| done].
  unfold index_or_raise, bind, ret, raise. by rewrite H0, H1, H2.
Qed.

Lemma dns_caching_body_other type_is a address s :
  a ≠ "A" → dns_caching_body type_is a address s = Done address s.
Proof. intros Ha. unfold dns_caching_body. by destruct (decide (a = "A")). Qed.

Lemma dns_caching_loop_glue type_is first last key todo address s :
  Py.index type_is 0 = Some first →
  Py.index type_is (-1) = Some last →
  Py.index (Py.split_on "." first) (-2) = Some key →
  dns_caching_loop type_is todo address s
  = if decide ("A" ∈ todo) then Done [last] (merged key last s)
    else Done address s.
Proof.
  intros H0 H1 H2. revert address s.
  induction todo as [|a todo IH]; intros address s; simpl.
  - destruct (decide ("A" ∈ [])) as [Hin|]; [by inversion Hin | done].
  - destruct (decide (a = "A")) as [->|Ha].
    + erewrite bind_Done by (eapply dns_caching_body_A; eassumption).
      rewrite IH, merged_idemp.
      destruct (decide ("A" ∈ "A" :: todo)); [| set_solver].
      by destruct (decide ("A" ∈ todo)).
    + erewrite bind_Done by by apply dns_caching_body_other.
      rewrite IH.
      destruct (decide ("A" ∈ todo)) as [Hin|Hin];
        [rewrite decide_True by (by apply list_elem_of_further) |
         rewrite decide_False by (by intros [?|?]%elem_of_cons)]; done.
Qed.

Lemma dns_caching_loop_raises type_is first last todo address s :
  Py.index type_is 0 = Some first →
  Py.index type_is (-1) = Some last →
  Py.index (Py.split_on "." first) (-2) = None →
  dns_caching_loop type_is todo address s
  = if decide ("A" ∈ todo) then Raised IndexError s else Done address s.
Proof.
  intros H0 H1 H2. revert address s.
  induction todo as [|a todo IH]; intros address s; simpl.
  - destruct (decide ("A" ∈ [])) as [Hin|]; [by inversion Hin | done].
  - destruct (decide (a = "A")) as [->|Ha].
    + erewrite bind_Raised
        by (eapply dns_caching_body_A_raises; eassumption).
      destruct (decide ("A" ∈ "A" :: todo)); [done | set_solver].
    + erewrite bind_Done by by apply dns_caching_body_other.
      rewrite IH.
      destruct (decide ("A" ∈ todo)) as [Hin|Hin];
        [rewrite decide_True by (by apply list_elem_of_further) |
         rewrite decide_False by (by intros [?|?]%elem_of_cons)]; done.
Qed.

Lemma dns_caching_loop_no_A type_is todo address s :
  "A" ∉ todo → dns_caching_loop type_is todo address s = Done address s.
Proof.
  revert address s. induction todo as [|a todo IH]; intros address s Hin.
  - done.
  - simpl. erewrite bind_Done by (apply dns_caching_body_other; set_solver).
    apply IH. set_solver.
Qed.

(** What [dns_caching] does on a record text with a token ['A']. *)
Lemma dns_caching_glue text first last key s :
  "A" ∈ Py.split_ws text →
  Py.index (Py.split_ws text) 0 = Some first →
  Py.index (Py.split_ws text) (-1) = Some last →
  Py.index (Py.split_on "." first) (-2) = Some key →
  dns_caching text s = Done [last] (merged key last s).
Proof.
  intros HA H0 H1 H2. unfold dns_caching.
  erewrite dns_caching_loop_glue by done.
  by destruct (decide ("A" ∈ Py.split_ws text)).
Qed.

Lemma dns_caching_other text s :
  "A" ∉ Py.split_ws text → dns_caching text s = Done [] s.
Proof. apply dns_caching_loop_no_A. Qed.

(** ** What resolution may change in the process state

    Resolution appends to the transport history and adds to the Address
    Cache; it touches neither the aggregate cache nor the output. *)

Lemma cache_le_refl c : cache_le c c.
Proof. intros k l Hk. eauto. Qed.

Lemma cache_le_trans c1 c2 c3 :
  cache_le c1 c2 → cache_le c2 c3 → cache_le c1 c3.
Proof.
  intros H12 H23 k l Hk.
  destruct (H12 k l Hk) as (l2 & Hk2 & Hp2).
  destruct (H23 k l2 Hk2) as (l3 & Hk3 & Hp3).
  exists l3. split; [done | by etrans].
Qed.

Lemma cache_le_merge zone address c : cache_le c (spec_merge zone address c).
Proof.
  intros k l Hk. unfold spec_merge.
  destruct (c !! zone) as [known|] eqn:Hz.
  - destruct (decide (address ∈ known)); [eauto |].
    destruct (decide (zone = k)) as [->|Hne].
    + rewrite lookup_insert_eq. exists (known ++ [address]).
      split; [done |]. rewrite Hk in Hz. injection Hz as ->.
      by apply prefix_app_r.
    + rewrite lookup_insert_ne by done. eauto.
  - destruct (decide (zone = k)) as [->|Hne]; [congruence |].
    rewrite lookup_insert_ne by done. eauto.
Qed.

Lemma cache_nodup_merge zone address c :
  cache_nodup c → cache_nodup (spec_merge zone address c).
Proof.
  intros Hc k l. unfold spec_merge.
  destruct (c !! zone) as [known|] eqn:Hz.
  - destruct (decide (address ∈ known)) as [|Hnew]; [apply Hc |].
    destruct (decide (zone = k)) as [->|Hne].
    + rewrite lookup_insert_eq. intros [= <-].
      apply NoDup_app. split; [by eapply Hc |].
      split; [| apply NoDup_singleton].
      intros x Hx ->%list_elem_of_singleton. done.
    + rewrite lookup_insert_ne by done. apply Hc.
  - destruct (decide (zone = k)) as [->|Hne].
    + rewrite lookup_insert_eq. intros [= <-]. apply NoDup_singleton.
    + rewrite lookup_insert_ne by done. apply Hc.
Qed.

Lemma extends_refl s : extends s s.
Proof. split; [apply cache_le_refl | done | done | done | done]. Qed.

Lemma extends_trans s1 s2 s3 : extends s1 s2 → extends s2 s3 → extends s1 s3.
Proof.
  intros [Hc1 Hn1 Hd1 Hl1 Ho1] [Hc2 Hn2 Hd2 Hl2 Ho2]. split.
  - by eapply cache_le_trans.
  - auto.
  - congruence.
  - by etrans.
  - congruence.
Qed.

Lemma extends_log_call c s : extends s (log_call c s).
Proof.
  split; simpl;
    [apply cache_le_refl | done | done | by apply prefix_app_r | done].
Qed.

Lemma extends_merged zone address s : extends s (merged zone address s).
Proof.
  split; simpl;
    [apply cache_le_merge | apply cache_nodup_merge | done | done | done].
Qed.

Lemma grows_ret {A} (a : A) : grows (ret a).
Proof. intros s. apply extends_refl. Qed.

Lemma grows_raise {A} e : grows (@raise A e).
Proof. intros s. apply extends_refl. Qed.

Lemma grows_bind {A B} (m : M A) (k : A → M B) :
  grows m → (∀ a, grows (k a)) → grows (bind m k).
Proof.
  intros Hm Hk s. unfold bind. specialize (Hm s).
  destruct (m s) as [a s1|e s1|]; [| done | done].
  specialize (Hk a s1).
  destruct (k a s1) as [b s2|e s2|]; [| | done]; by eapply extends_trans.
Qed.

Lemma grows_index_or_raise {A} (l : list A) i : grows (index_or_raise l i).
Proof.
  unfold index_or_raise.
  destruct (Py.index l i); [apply grows_ret | apply grows_raise].
Qed.

Lemma grows_dns_caching_body type_is a address :
  grows (dns_caching_body type_is a address).
Proof.
  unfold dns_caching_body. destruct (decide (a = "A")); [| apply grows_ret].
  apply grows_bind; [apply grows_index_or_raise | intros first].
  apply grows_bind; [apply grows_index_or_raise | intros last].
  apply grows_bind; [apply grows_index_or_raise | intros key].
  intros s. unfold bind, get_state, modify, ret.
  pose proof (extends_merged key last s) as Hm.
  unfold merged, spec_merge in Hm.
  destruct (dns_cache s !! key) as [known|]; [| done].
  unfold index_or_raise. simpl.
  destruct (decide (last ∈ known)); [apply extends_refl | done].
Qed.

Lemma grows_dns_caching_loop type_is todo address :
  grows (dns_caching_loop type_is todo address).
Proof.
  revert address. induction todo as [|a todo IH]; intros address; simpl.
  - apply grows_ret.
  - apply grows_bind; [apply grows_dns_caching_body | intros; apply IH].
Qed.

Lemma grows_dns_caching text : grows (dns_caching text).
Proof. apply grows_dns_caching_loop. Qed.

Section Grows.

Variable udp : list udp_call → udp_call → option message.
Variable from_text : string → string.

Lemma grows_query_udp q server : grows (query_udp udp q server).
Proof. intros s. apply extends_log_call. Qed.

Section Loops.

Variable recur : string → Z → list string → M (option message).
Hypothesis grows_recur : ∀ t q l, grows (recur t q l).

Lemma grows_ns_answer_loop t q answers :
  grows (ns_answer_loop recur t q answers).
Proof.
  induction answers as [|a answers IH]; simpl; [apply grows_ret |].
  apply grows_bind; [apply grows_dns_caching | intros addr].
  apply grows_bind; [apply grows_recur | intros [r|]];
    [apply grows_ret | apply IH].
Qed.

Lemma grows_host_loop t q hosts : grows (host_loop recur t q hosts).
Proof.
  induction hosts as [|h hosts IH]; simpl; [apply grows_ret |].
  apply grows_bind; [apply grows_recur | intros resp].
  apply grows_bind.
  - destruct resp; [apply grows_ns_answer_loop | apply grows_ret].
  - intros [|r]; [apply IH | apply grows_ret].
Qed.

Lemma grows_authority_loop t q sections ns :
  grows (authority_loop recur t q sections ns).
Proof.
  revert ns. induction sections as [|a sections IH]; intros ns; simpl;
    [apply grows_ret |].
  apply grows_bind; [apply grows_host_loop |].
  intros [|r]; [apply IH | apply grows_ret].
Qed.

Lemma grows_additional_loop sections l :
  grows (additional_loop sections l).
Proof.
  revert l. induction sections as [|a sections IH]; intros l; simpl;
    [apply grows_ret |].
  apply grows_bind; [apply grows_dns_caching | intros; apply IH].
Qed.

Lemma grows_answer_loop resp q answers t :
  grows (answer_loop recur resp q answers t).
Proof.
  revert t. induction answers as [|a answers IH]; intros t; simpl;
    [apply grows_ret |].
  destruct (decide (rdtype a = q)); [apply grows_ret |].
  destruct (decide (rdtype a = 5)); [| apply IH].
  apply grows_bind; [apply grows_recur | intros; apply grows_ret].
Qed.

Lemma grows_answers_loop resp q sections t :
  grows (answers_loop recur resp q sections t).
Proof.
  revert t. induction sections as [|a sections IH]; intros t; simpl;
    [apply grows_ret |].
  apply grows_bind; [apply grows_answer_loop |].
  intros [[|r] t']; [apply IH | apply grows_ret].
Qed.

Lemma grows_server_body oq q server t :
  grows (server_body udp recur oq q server t).
Proof.
  unfold server_body.
  apply grows_bind; [apply grows_query_udp | intros [resp|]];
    [| apply grows_ret].
  destruct (answer resp); [| apply grows_answers_loop].
  destruct (additional resp).
  - apply grows_bind; [apply grows_authority_loop |].
    intros; apply grows_ret.
  - apply grows_bind; [apply grows_additional_loop | intros glue].
    apply grows_bind; [apply grows_recur | intros; apply grows_ret].
Qed.

Lemma grows_server_loop oq q servers t :
  grows (server_loop udp recur oq q servers t).
Proof.
  revert t. induction servers as [|x servers IH]; intros t; simpl;
    [apply grows_ret |].
  apply grows_bind; [apply grows_server_body |].
  intros [[|r] t']; [apply IH | apply grows_ret].
Qed.

End Loops.

Lemma grows_recurlookup fuel t q l : grows (_recurlookup udp fuel t q l).
Proof.
  revert t q l. induction fuel as [|fuel IH]; intros t q l; [done |].
  simpl. destruct l; [apply grows_ret |].
  by apply grows_server_loop.
Qed.

Lemma grows_lookup fuel t q : grows (lookup udp fuel t q).
Proof.
  unfold lookup.
  apply grows_bind; [apply grows_index_or_raise | intros key].
  intros s. unfold bind, get_state.
  destruct (dns_cache s !! key); apply grows_recurlookup.
Qed.

Lemma grows_collect_results fuel name :
  grows (collect_results udp from_text fuel name).
Proof.
  unfold collect_results.
  apply grows_bind; [apply grows_lookup | intros r1].
  destruct (match r1 with Some _ => _ | None => _ end) as [cnames t].
  apply grows_bind; [apply grows_lookup | intros r2].
  apply grows_bind; [apply grows_lookup | intros r3].
  apply grows_bind; [apply grows_lookup | intros r4].
  apply grows_ret.
Qed.

End Grows.

(** ** The candidate loop *)

Section CandidateLoop.

Variable udp : list udp_call → udp_call → option message.
Variable recur : string → Z → list string → M (option message).
Variable oq : string * Z.
Variable qtype : Z.

Lemma log_calls_nil s : log_calls [] s = s.
Proof. destruct s. unfold log_calls. simpl. by rewrite app_nil_r. Qed.

Lemma log_calls_cons c calls s :
  log_calls (c :: calls) s = log_calls calls (log_call c s).
Proof. unfold log_calls, log_call. simpl. by rewrite <- app_assoc. Qed.

Lemma server_body_transport_failure server t s :
  udp (udp_log s) (UdpCall oq.1 oq.2 server) = None →
  server_body udp recur oq qtype server t s
  = Done (Next, t) (log_call (UdpCall oq.1 oq.2 server) s).
Proof.
  intros Hfail. unfold server_body, bind, query_udp. by rewrite Hfail.
Qed.

Lemma server_body_answers server t s response :
  udp (udp_log s) (UdpCall oq.1 oq.2 server) = Some response →
  answer response ≠ [] →
  server_body udp recur oq qtype server t s
  = answers_loop recur response qtype (answer response) t
      (log_call (UdpCall oq.1 oq.2 server) s).
Proof.
  intros Hudp Hanswer. unfold server_body, bind, query_udp.
  rewrite Hudp. by destruct (answer response).
Qed.

Lemma server_body_glue server t s response :
  udp (udp_log s) (UdpCall oq.1 oq.2 server) = Some response →
  answer response = [] →
  additional response ≠ [] →
  server_body udp recur oq qtype server t s
  = bind (additional_loop (additional response) [])
      (λ glue, bind (recur t qtype glue) (λ r, ret (Return r, t)))
      (log_call (UdpCall oq.1 oq.2 server) s).
Proof.
  intros Hudp Hanswer Hadditional. unfold server_body, query_udp.
  unfold bind at 1. rewrite Hudp, Hanswer.
  by destruct (additional response).
Qed.

Lemma server_body_glueless server t s response :
  udp (udp_log s) (UdpCall oq.1 oq.2 server) = Some response →
  answer response = [] →
  additional response = [] →
  server_body udp recur oq qtype server t s
  = bind (authority_loop recur t qtype (authority response) [])
      (λ f, ret (f, t))
      (log_call (UdpCall oq.1 oq.2 server) s).
Proof.
  intros Hudp Hanswer Hadditional. unfold server_body, query_udp.
  unfold bind at 1. by rewrite Hudp, Hanswer, Hadditional.
Qed.

(** Transport failures are skipped: one call each, nothing else. *)
Lemma exhausted_all_fail servers t s :
  all_fail udp (udp_log s) (calls_to oq servers) →
  exhausted udp recur oq qtype servers t t s
    (log_calls (calls_to oq servers) s).
Proof.
  revert s. induction servers as [|x servers IH]; intros s Hfail.
  - rewrite log_calls_nil. constructor.
  - destruct Hfail as [Hx Hrest]. simpl. rewrite log_calls_cons.
    econstructor; [by apply server_body_transport_failure |].
    by apply IH.
Qed.

Lemma server_loop_exhausted tried rest t t' s s' :
  exhausted udp recur oq qtype tried t t' s s' →
  server_loop udp recur oq qtype (tried ++ rest) t s
  = server_loop udp recur oq qtype rest t' s'.
Proof.
  induction 1 as [|server tried t t1 t2 s s1 s2 Hbody _ IH]; [done |].
  simpl. by erewrite bind_Done by exact Hbody.
Qed.

Lemma server_loop_all_exhausted servers t t' s s' :
  exhausted udp recur oq qtype servers t t' s s' →
  server_loop udp recur oq qtype servers t s = Done None s'.
Proof.
  induction 1 as [|server tried t t1 t2 s s1 s2 Hbody _ IH]; [done |].
  simpl. by erewrite bind_Done by exact Hbody.
Qed.

Lemma server_loop_cons server rest t s :
  server_loop udp recur oq qtype (server :: rest) t s
  = bind (server_body udp recur oq qtype server t)
      (λ ft, match ft with
             | (Return r, _) => ret r
             | (Next, t') => server_loop udp recur oq qtype rest t'
             end) s.
Proof. done. Qed.

End CandidateLoop.

Lemma recurlookup_unfold udp fuel t q tried server rest s :
  _recurlookup udp (S fuel) t q (tried ++ server :: rest) s
  = server_loop udp (_recurlookup udp fuel) (make_query t q) q
      (tried ++ server :: rest) t s.
Proof. simpl. by destruct tried. Qed.

(** ** The answer walk *)

Section AnswerWalk.

Variable recur : string → Z → list string → M (option message).
Variable response : message.
Variable q : Z.

Lemma clobbered_cons a answers t :
  clobbered answers (Py.drop_last (rd_str a)) = clobbered (a :: answers) t.
Proof.
  unfold clobbered. rewrite last_cons. by destruct (last answers).
Qed.

Lemma clobbered_app l1 l2 t :
  clobbered (l1 ++ l2) t = clobbered l2 (clobbered l1 t).
Proof.
  revert t. induction l1 as [|a l1 IH]; intros t; [done |].
  simpl. by rewrite <- !(clobbered_cons a), IH.
Qed.

Lemma answer_loop_irrelevant answers t s :
  Forall (λ x, relevant q x = false) answers →
  answer_loop recur response q answers t s
  = Done (Next, clobbered answers t) s.
Proof.
  intros Hirr. revert t.
  induction Hirr as [|a answers Ha _ IH]; intros t; [done |].
  simpl. unfold relevant in Ha. apply orb_false_iff in Ha as [Hq H5].
  apply bool_decide_eq_false in Hq, H5.
  destruct (decide (rdtype a = q)); [done |].
  destruct (decide (rdtype a = 5)); [done |].
  by rewrite IH, (clobbered_cons a answers t).
Qed.

Lemma answer_loop_first pre a post t s :
  Forall (λ x, relevant q x = false) pre →
  relevant q a = true →
  answer_loop recur response q (pre ++ a :: post) t s = decided recur response q a s.
Proof.
  intros Hirr Ha. revert t.
  induction Hirr as [|x pre Hx _ IH]; intros t.
  - simpl. unfold decided, relevant in *.
    destruct (decide (rdtype a = q)); [done |].
    destruct (decide (rdtype a = 5)); [done |].
    rewrite !bool_decide_eq_false_2 in Ha by done. done.
  - simpl. unfold relevant in Hx. apply orb_false_iff in Hx as [Hq H5].
    apply bool_decide_eq_false in Hq, H5.
    destruct (decide (rdtype x = q)); [done |].
    destruct (decide (rdtype x = 5)); [done |].
    apply IH.
Qed.

Lemma answers_loop_irrelevant sections t s :
  Forall (λ x, relevant q x = false) (flat_map rr_items sections) →
  answers_loop recur response q sections t s
  = Done (Next, clobbered (flat_map rr_items sections) t) s.
Proof.
  revert t. induction sections as [|rs sections IH]; intros t Hirr;
    [done |].
  simpl in *. apply Forall_app in Hirr as [Hrs Hrest].
  erewrite bind_Done by by apply answer_loop_irrelevant.
  cbn beta iota. by rewrite IH, clobbered_app.
Qed.

(** The walk over the whole section is the walk over its records in
    order: the first relevant record decides. *)
Lemma answers_loop_first sections pre a post t s :
  flat_map rr_items sections = pre ++ a :: post →
  Forall (λ x, relevant q x = false) pre →
  relevant q a = true →
  answers_loop recur response q sections t s = decided recur response q a s.
Proof.
  revert pre t. induction sections as [|rs sections IH];
    intros pre t Hflat Hirr Ha.
  - by destruct pre.
  - simpl in Hflat. simpl.
    apply app_eq_inv in Hflat as [(k & Hrs & Hk)|(k & Hpre & Hk)].
    + destruct k as [|x k].
      * rewrite app_nil_r in Hrs. subst pre. simpl in Hk.
        erewrite bind_Done by by apply answer_loop_irrelevant.
        cbn beta iota. by eapply (IH []).
      * injection Hk as Hax Hk. subst x. rewrite Hrs.
        unfold bind at 1.
        rewrite (answer_loop_first pre a k t s Hirr Ha).
        unfold decided, bind, ret.
        destruct (decide (rdtype a = q)); [done |].
        by destruct (recur (Py.drop_last (rd_str a)) q ROOT_SERVERS s).
    + rewrite Hpre in Hirr. apply Forall_app in Hirr as [Hirr1 Hirr2].
      erewrite bind_Done by by apply answer_loop_irrelevant.
      cbn beta iota. by eapply IH.
Qed.

End AnswerWalk.

(** ** Only a response that answers the query is ever returned *)

Lemma post_ret {A} (P : A → Prop) a : P a → post P (ret a).
Proof. intros Ha s a' s' [= <- _]. done. Qed.

Lemma post_bind {A B} (Q : A → Prop) (P : B → Prop) (m : M A) k :
  post Q m → (∀ a, Q a → post P (k a)) → post P (bind m k).
Proof.
  intros Hm Hk s b s'. unfold bind.
  destruct (m s) as [a s1|e s1|] eqn:Hms; [| done | done].
  apply Hk. by eapply Hm.
Qed.

Lemma post_true {A} (m : M A) : post (λ _, True) m.
Proof. by intros s a s' _. Qed.

Lemma first_relevant (q : Z) (l : list rdata) :
  Forall (λ x, relevant q x = false) l
  ∨ ∃ pre a post,
      l = pre ++ a :: post
      ∧ Forall (λ x, relevant q x = false) pre
      ∧ relevant q a = true.
Proof.
  induction l as [|x l IH]; [by left |].
  destruct (relevant q x) eqn:Hx.
  - right. exists [], x, l. by repeat split.
  - destruct IH as [Hl|(pre & a & post & -> & Hpre & Ha)].
    + left. by constructor.
    + right. exists (x :: pre), a, post. repeat split; [| done].
      by constructor.
Qed.

Section ReturnsAnswer.

Variable udp : list udp_call → udp_call → option message.
Variable q : Z.

Section Loops.

Variable recur : string → Z → list string → M (option message).
Hypothesis recur_ok : ∀ t l, post (answer_or_absent q) (recur t q l).

Lemma post_ns_answer_loop t answers :
  post (flow_answers q) (ns_answer_loop recur t q answers).
Proof.
  induction answers as [|a answers IH]; simpl; [by apply post_ret |].
  eapply post_bind; [apply post_true | intros addr _].
  eapply post_bind; [apply recur_ok | intros [r|] Hr];
    [by apply post_ret | apply IH].
Qed.

Lemma post_host_loop t hosts :
  post (flow_answers q) (host_loop recur t q hosts).
Proof.
  induction hosts as [|h hosts IH]; simpl; [by apply post_ret |].
  eapply post_bind; [apply post_true | intros resp _].
  eapply (post_bind (flow_answers q)).
  - destruct resp; [apply post_ns_answer_loop | by apply post_ret].
  - intros [|r] Hr; [apply IH | by apply post_ret].
Qed.

Lemma post_authority_loop t sections ns :
  post (flow_answers q) (authority_loop recur t q sections ns).
Proof.
  revert ns. induction sections as [|a sections IH]; intros ns; simpl;
    [by apply post_ret |].
  eapply post_bind; [apply post_host_loop |].
  intros [|r] Hr; [apply IH | by apply post_ret].
Qed.

Lemma post_decided response a pre post' :
  flat_map rr_items (answer response) = pre ++ a :: post' →
  Forall (λ x, relevant q x = false) pre →
  post (λ ft, flow_answers q ft.1) (decided recur response q a).
Proof.
  intros Hflat Hpre. unfold decided.
  destruct (decide (rdtype a = q)) as [Ha|Ha].
  - apply post_ret. simpl. by exists pre, a, post'.
  - eapply post_bind; [apply recur_ok | intros r Hr].
    by apply post_ret.
Qed.

Lemma post_answers_loop response t :
  post (λ ft, flow_answers q ft.1)
    (answers_loop recur response q (answer response) t).
Proof.
  destruct (first_relevant q (flat_map rr_items (answer response)))
    as [Hirr|(pre & a & post' & Hflat & Hpre & Ha)].
  - intros s ft s'. rewrite answers_loop_irrelevant by done.
    by intros [= <- _].
  - intros s ft s'. erewrite answers_loop_first by done.
    by eapply post_decided.
Qed.

Lemma post_server_body oq server t :
  post (λ ft, flow_answers q ft.1) (server_body udp recur oq q server t).
Proof.
  unfold server_body.
  eapply post_bind; [apply post_true | intros [response|] _];
    [| by apply post_ret].
  destruct (answer response) as [|rs0 rest0] eqn:Hanswer.
  - destruct (additional response) as [|g0 rest1].
    + eapply post_bind; [apply post_authority_loop | intros f Hf].
      by apply post_ret.
    + eapply post_bind; [apply post_true | intros glue _].
      eapply post_bind; [apply recur_ok | intros r Hr].
      by apply post_ret.
  - rewrite <- Hanswer. apply post_answers_loop.
Qed.

Lemma post_server_loop oq servers t :
  post (answer_or_absent q) (server_loop udp recur oq q servers t).
Proof.
  revert t. induction servers as [|x servers IH]; intros t; simpl;
    [by apply post_ret |].
  eapply post_bind; [apply post_server_body |].
  intros [[|r] t'] Hr; [apply IH | by apply post_ret].
Qed.

End Loops.

Lemma post_recurlookup fuel t l :
  post (answer_or_absent q) (_recurlookup udp fuel t q l).
Proof.
  revert t l. induction fuel as [|fuel IH]; intros t l; [done |].
  simpl. destruct l; [by apply post_ret |].
  by apply post_server_loop.
Qed.

End ReturnsAnswer.

(** ** The engine's outcomes *)

(** C4: with no candidate the engine returns absent in an unchanged state,
    so without a transport call; and when every candidate's turn fell
    through, transport failures included, it returns absent. *)
Theorem recurlookup_absent udp fuel target_name qtype servers t' s s' :
  exhausted udp (_recurlookup udp fuel) (make_query target_name qtype) qtype
    servers target_name t' s s' →
  _recurlookup udp (S fuel) target_name qtype [] s = Done None s
  ∧ _recurlookup udp (S fuel) target_name qtype servers s = Done None s'.
Proof.
  intros Hex. split; [done |].
  destruct servers as [|server rest].
  - by inversion Hex.
  - rewrite (recurlookup_unfold udp fuel target_name qtype [] server rest).
    by eapply server_loop_all_exhausted.
Qed.

Lemma recurlookup_absent_witness :
  _recurlookup Net.dead_net 1 "example.com." 1 [] initial_state
  = Done None initial_state
  ∧ _recurlookup Net.dead_net 1 "example.com." 1 ["10.0.0.1"; "10.0.0.2"]
      initial_state
    = Done None
        (log_calls [UdpCall "example.com." 1 "10.0.0.1";
                    UdpCall "example.com." 1 "10.0.0.2"] initial_state).
Proof.
  apply (recurlookup_absent Net.dead_net 0 "example.com." 1
           ["10.0.0.1"; "10.0.0.2"] "example.com.").
  apply (exhausted_all_fail Net.dead_net (_recurlookup Net.dead_net 0)
           (make_query "example.com." 1) 1 ["10.0.0.1"; "10.0.0.2"]).
  simpl. auto.
Defined.

(** C1: at a candidate whose response has records in its answer section,
    the first record, in order, that has the requested type or is a CNAME
    decides: on the requested type the response itself is returned; on a
    CNAME (the requested type being another) the result is that of
    resolving the CNAME's target from the root servers.  Whatever response
    the engine returns answers the query: its first such record has the
    requested type, so it is not a CNAME when another type was asked. *)
Theorem answer_walk_decides udp fuel target_name qtype tried server rest t'
    s s1 response pre a post :
  exhausted udp (_recurlookup udp fuel) (make_query target_name qtype) qtype
    tried target_name t' s s1 →
  udp (udp_log s1) (UdpCall target_name qtype server) = Some response →
  flat_map rr_items (answer response) = pre ++ a :: post →
  Forall (λ x, rdtype x ≠ qtype ∧ rdtype x ≠ 5) pre →
  rdtype a = qtype ∨ rdtype a = 5 →
  let s2 := log_call (UdpCall target_name qtype server) s1 in
  _recurlookup udp (S fuel) target_name qtype (tried ++ server :: rest) s
  = (if decide (rdtype a = qtype) then Done (Some response) s2
     else _recurlookup udp fuel (Py.drop_last (rd_str a)) qtype
            ROOT_SERVERS s2)
  ∧ returned_answers qtype
      (_recurlookup udp (S fuel) target_name qtype
         (tried ++ server :: rest) s).
Proof.
  intros Hex Hudp Hflat Hpre Ha s2. split.
  - rewrite recurlookup_unfold.
    erewrite server_loop_exhausted by exact Hex.
    rewrite server_loop_cons.
    assert (answer response ≠ []) as Hanswer.
    { intros Hnil. rewrite Hnil in Hflat. by destruct pre. }
    assert (Forall (λ x, relevant qtype x = false) pre) as Hirr.
    { eapply Forall_impl; [exact Hpre |]. intros x [Hq H5]. unfold relevant.
      by rewrite !bool_decide_eq_false_2. }
    assert (relevant qtype a = true) as Hrel.
    { unfold relevant. destruct Ha as [Ha|Ha].
      - by rewrite (bool_decide_eq_true_2 _ Ha).
      - rewrite (bool_decide_eq_true_2 (rdtype a = 5) Ha).
        apply orb_true_r. }
    unfold bind at 1.
    rewrite (server_body_answers udp _ (make_query target_name qtype) qtype
               server t' s1 response Hudp Hanswer).
    rewrite (answers_loop_first _ response qtype _ pre a post t' _
               Hflat Hirr Hrel).
    unfold decided, bind, ret, make_query. cbn [fst snd]. fold s2.
    destruct (decide (rdtype a = qtype)); [done |].
    by destruct (_recurlookup udp fuel (Py.drop_last (rd_str a)) qtype
                   ROOT_SERVERS s2).
  - pose proof (post_recurlookup udp qtype (S fuel) target_name
                  (tried ++ server :: rest) s) as Hpost.
    unfold returned_answers.
    destruct (_recurlookup udp (S fuel) target_name qtype
                (tried ++ server :: rest) s) as [r s3|e s3|] eqn:Hrun;
      [| done | done].
    by eapply Hpost.
Qed.

Lemma answer_walk_decides_witness :
  let s2 := log_calls [UdpCall "www.example.com." 1 "10.0.0.9";
                       UdpCall "www.example.com." 1 "10.0.0.1"]
              initial_state in
  _recurlookup Net.alias_net 2 "www.example.com." 1 ["10.0.0.9"; "10.0.0.1"]
    initial_state
  = _recurlookup Net.alias_net 1 "example.com" 1 ROOT_SERVERS s2
  ∧ returned_answers 1
      (_recurlookup Net.alias_net 2 "www.example.com." 1
         ["10.0.0.9"; "10.0.0.1"] initial_state).
Proof.
  apply (answer_walk_decides Net.alias_net 1 "www.example.com." 1
           ["10.0.0.9"] "10.0.0.1" [] "www.example.com." initial_state
           (log_calls [UdpCall "www.example.com." 1 "10.0.0.9"]
              initial_state)
           Net.alias_response [] (Rdata 5 "example.com." 0 "")
           [Rdata 1 "93.184.216.34" 0 ""]).
  - apply (exhausted_all_fail Net.alias_net (_recurlookup Net.alias_net 1)
             (make_query "www.example.com." 1) 1 ["10.0.0.9"]).
    simpl. auto.
  - reflexivity.
  - reflexivity.
  - constructor.
  - right. reflexivity.
Defined.

(** ** The Glue Extractor on address records *)

Lemma occurrences_absent a l : a ∉ l → occurrences a l = 0%nat.
Proof.
  unfold occurrences. induction l as [|x l IH]; intros Hl; [done |].
  rewrite filter_cons. destruct (decide (x = a)); [set_solver |].
  apply IH. set_solver.
Qed.

Lemma occurrences_nodup a l : a ∈ l → NoDup l → occurrences a l = 1%nat.
Proof.
  unfold occurrences. induction l as [|x l IH]; intros Hl Hnd.
  - by inversion Hl.
  - inversion Hnd as [|? ? Hx Hnd']; subst. rewrite filter_cons.
    destruct (decide (x = a)) as [->|Hne].
    + simpl. f_equal. by apply occurrences_absent.
    + apply IH; [| done]. by apply elem_of_cons in Hl as [|].
Qed.

Lemma index_last_nonempty {A} (l : list A) x :
  Py.index l 0 = Some x → is_Some (Py.index l (-1)).
Proof.
  intros H0. destruct l as [|y l]; [done |].
  change (-1) with (- Z.of_nat 1).
  rewrite index_neg by (simpl; lia).
  apply lookup_lt_is_Some. simpl. lia.
Qed.

Lemma index_neg2_short (l : list string) :
  (length l < 2)%nat → Py.index l (-2) = None.
Proof. intros Hl. change (-2) with (- Z.of_nat 2). by apply index_neg_short. Qed.

(** C10: on a text with a token ['A'] whose first token has fewer than two
    dot-separated components, [dns_caching] raises IndexError; it does not
    skip the record. *)
Theorem dns_caching_short_name_raises text first s :
  "A" ∈ Py.split_ws text →
  Py.index (Py.split_ws text) 0 = Some first →
  (length (Py.split_on "." first) < 2)%nat →
  dns_caching text s = Raised IndexError s.
Proof.
  intros HA Hfirst Hshort.
  destruct (index_last_nonempty _ _ Hfirst) as [last Hlast].
  unfold dns_caching.
  erewrite dns_caching_loop_raises
    by eauto using index_neg2_short.
  by destruct (decide ("A" ∈ Py.split_ws text)).
Qed.

Lemma dns_caching_short_name_raises_witness :
  dns_caching "localhost A 1.2.3.4" initial_state
  = Raised IndexError initial_state.
Proof.
  apply (dns_caching_short_name_raises "localhost A 1.2.3.4" "localhost").
  - apply (bool_decide_unpack _). vm_compute. exact I.
  - reflexivity.
  - vm_compute. lia.
Defined.

(** C7: feeding an address record of zone [zone] and address [address]
    creates the zone's list [[address]] when the zone is unseen; feeding
    such a record again changes nothing, and the list holds the address
    exactly once; every list already in the cache is a prefix of the list
    now under the same key. *)
Theorem dns_caching_merges text text' zone address s :
  glue_record text zone address →
  glue_record text' zone address →
  cache_nodup (dns_cache s) →
  ∃ s1 l1,
    dns_caching text s = Done [address] s1
    ∧ dns_cache s1 !! zone = Some l1
    ∧ match dns_cache s !! zone with
      | None => l1 = [address]
      | Some l => l `prefix_of` l1
      end
    ∧ occurrences address l1 = 1%nat
    ∧ dns_caching text' s1 = Done [address] s1
    ∧ cache_le (dns_cache s) (dns_cache s1)
    ∧ cache_nodup (dns_cache s1).
Proof.
  intros (HA & first & H0 & H2 & H1) (HA' & first' & H0' & H2' & H1') Hnd.
  destruct (spec_merge_lookup zone address (dns_cache s)) as (l1 & Hl1 & Hin).
  exists (merged zone address s), l1.
  pose proof (cache_nodup_merge zone address _ Hnd) as Hnd1.
  repeat split.
  - by eapply dns_caching_glue.
  - done.
  - pose proof (cache_le_merge zone address (dns_cache s)) as Hle.
    destruct (dns_cache s !! zone) as [l|] eqn:Hz.
    + destruct (Hle zone l Hz) as (l' & Hl' & Hpre).
      simpl in Hl1. congruence.
    + simpl in Hl1. unfold spec_merge in Hl1. rewrite Hz in Hl1.
      rewrite lookup_insert_eq in Hl1. congruence.
  - apply occurrences_nodup; [done |]. by eapply Hnd1.
  - erewrite dns_caching_glue by done. by rewrite merged_idemp.
  - apply cache_le_merge.
  - done.
Qed.

Lemma dns_caching_merges_witness :
  ∃ s1 l1,
    dns_caching "ns.example.com. 3600 IN A 10.0.0.1" initial_state
    = Done ["10.0.0.1"] s1
    ∧ dns_cache s1 !! "com" = Some l1
    ∧ l1 = ["10.0.0.1"]
    ∧ occurrences "10.0.0.1" l1 = 1%nat
    ∧ dns_caching "a.b.com. 60 IN A 10.0.0.1" s1 = Done ["10.0.0.1"] s1
    ∧ cache_le (dns_cache initial_state) (dns_cache s1)
    ∧ cache_nodup (dns_cache s1).
Proof.
  apply (dns_caching_merges "ns.example.com. 3600 IN A 10.0.0.1"
           "a.b.com. 60 IN A 10.0.0.1" "com" "10.0.0.1" initial_state).
  - split; [apply (bool_decide_unpack _); vm_compute; exact I |].
    exists "ns.example.com.". repeat split; reflexivity.
  - split; [apply (bool_decide_unpack _); vm_compute; exact I |].
    exists "a.b.com.". repeat split; reflexivity.
  - intros k l Hk. simpl in Hk. by rewrite lookup_empty in Hk.
Defined.

(** ** The Query Router *)

(** C5: for a name whose dot-separated labels end in [key] then [last],
    the router's key is [key]; with a cache entry under it the engine is
    seeded with the cached list, otherwise with the root servers. *)
Theorem lookup_routes udp fuel labels key last qtype s :
  Forall (λ w, Py.contains "." w = false) (labels ++ [key; last]) →
  let target_name := Py.join "." (labels ++ [key; last]) in
  lookup udp fuel target_name qtype s
  = match dns_cache s !! key with
    | Some cached_address =>
        _recurlookup udp fuel target_name qtype cached_address s
    | None => _recurlookup udp fuel target_name qtype ROOT_SERVERS s
    end.
Proof.
  intros Hlabels target_name. unfold lookup, target_name.
  rewrite split_on_join; [| by destruct labels | done].
  unfold index_or_raise. rewrite index_second_to_last.
  unfold bind, ret, get_state.
  by destruct (dns_cache s !! key).
Qed.

Lemma lookup_routes_witness :
  lookup Net.glue_net 3 "ns.example.com." 1
    (merged "com" "10.0.0.1" initial_state)
  = _recurlookup Net.glue_net 3 "ns.example.com." 1 ["10.0.0.1"]
      (merged "com" "10.0.0.1" initial_state).
Proof.
  apply (lookup_routes Net.glue_net 3 ["ns"; "example"] "com" "" 1
           (merged "com" "10.0.0.1" initial_state)).
  repeat constructor.
Defined.

(** X11: a name without a dot has no label before the last: the router
    raises IndexError before any transport call, the state unchanged. *)
Lemma lookup_dotless_raises udp fuel target_name qtype s :
  Py.contains "." target_name = false →
  lookup udp fuel target_name qtype s = Raised IndexError s.
Proof.
  intros Hdot. unfold lookup, Py.split_on.
  rewrite <- (append_nil_r target_name).
  rewrite split_on_from_field by done. by rewrite append_nil_l.
Qed.

(** ** Referrals without glue *)

Section Glueless.

Variable recur : string → Z → list string → M (option message).
Variable target_name : string.
Variable qtype : Z.

Lemma auth_loop_hostnames auths ns_records :
  auth_loop auths ns_records = ns_records ++ ns_hostnames 6 auths.
Proof.
  revert ns_records. unfold ns_hostnames.
  induction auths as [|auth auths IH]; intros ns_records; simpl.
  - by rewrite app_nil_r.
  - rewrite filter_cons. destruct (decide (rdtype auth = 6)) as [H6|H6].
    + rewrite decide_False by auto. apply IH.
    + rewrite decide_True by done. rewrite IH. simpl.
      by rewrite <- app_assoc.
Qed.

Lemma host_loop_app hosts1 hosts2 s :
  host_loop recur target_name qtype (hosts1 ++ hosts2) s
  = bind (host_loop recur target_name qtype hosts1)
      (λ f, match f with
            | Return r => ret (Return r)
            | Next => host_loop recur target_name qtype hosts2
            end) s.
Proof.
  revert s. induction hosts1 as [|h hosts1 IH]; intros s; [done |].
  simpl. unfold bind.
  destruct (recur h 1 ROOT_SERVERS s) as [[resp|] s1|e s1|];
    [| | done | done].
  - destruct (ns_answer_loop recur target_name qtype (answer resp) s1)
      as [[|r] s2|e s2|]; [| done | done | done].
    rewrite IH. by unfold bind.
  - unfold ret. rewrite IH. by unfold bind.
Qed.

(** The nested authority loops are one host loop in visit order. *)
Lemma authority_loop_visit sections ns_records s :
  authority_loop recur target_name qtype sections ns_records s
  = host_loop recur target_name qtype (visit_order sections ns_records) s.
Proof.
  revert ns_records s.
  induction sections as [|rs sections IH]; intros ns_records s; [done |].
  simpl. rewrite host_loop_app, auth_loop_hostnames. unfold bind.
  destruct (host_loop recur target_name qtype _ s) as [[|r] s1|e s1|];
    [| done | done | done].
  apply IH.
Qed.

Lemma elem_of_ns_hostnames skip h auths :
  h ∈ ns_hostnames skip auths
  ↔ ∃ auth, auth ∈ auths ∧ rdtype auth ≠ skip
            ∧ h = Py.drop_last (rd_str auth).
Proof.
  unfold ns_hostnames. rewrite list_elem_of_fmap. split.
  - intros (auth & -> & Hin). apply list_elem_of_filter in Hin as [Hne Hin].
    eauto.
  - intros (auth & Hin & Hne & ->). exists auth. split; [done |].
    by apply list_elem_of_filter.
Qed.

Lemma elem_of_visit_order h sections ns_records :
  h ∈ visit_order sections ns_records
  ↔ sections ≠ [] ∧ (h ∈ ns_records
                     ∨ h ∈ ns_hostnames 6 (flat_map rr_items sections)).
Proof.
  revert ns_records.
  induction sections as [|rs sections IH]; intros ns_records; simpl.
  - split; [by intros ?%not_elem_of_nil | by intros [? _]].
  - unfold ns_hostnames at 3. rewrite filter_app, fmap_app.
    fold (ns_hostnames 6 (rr_items rs)).
    fold (ns_hostnames 6 (flat_map rr_items sections)).
    rewrite !elem_of_app, IH, !elem_of_app. split.
    + intros [[?|?]|[_ [[?|?]|?]]]; split; auto.
    + intros [_ [?|[?|?]]]; auto.
      destruct sections as [|rs' sections]; [| right; split; auto; done].
      simpl in *. unfold ns_hostnames in H. simpl in H.
      by apply not_elem_of_nil in H.
Qed.

(** The loop over a sub-resolution's answers returns the first result
    found along the address paths. *)
Lemma ns_answer_loop_first_found answers s :
  ns_answer_loop recur target_name qtype answers s
  = bind (first_found (address_path recur target_name qtype) answers)
      (λ r, match r with
            | Some found => ret (Return (Some found))
            | None => ret Next
            end) s.
Proof.
  revert s. induction answers as [|x answers IH]; intros s; [done |].
  simpl. unfold address_path, bind.
  destruct (dns_caching (rr_str x) s) as [addrs s1|e s1|]; [| done | done].
  destruct (recur target_name qtype addrs s1) as [[found|] s2|e s2|];
    [done | | done | done].
  rewrite IH. by unfold bind.
Qed.

(** The host loop returns the first result found along the host paths. *)
Lemma host_loop_first_found hosts s :
  host_loop recur target_name qtype hosts s
  = bind (first_found (host_path recur target_name qtype) hosts)
      (λ r, match r with
            | Some found => ret (Return (Some found))
            | None => ret Next
            end) s.
Proof.
  revert s. induction hosts as [|h hosts IH]; intros s; [done |].
  simpl. unfold host_path, bind.
  destruct (recur h 1 ROOT_SERVERS s) as [[resp|] s1|e s1|];
    [| | done | done].
  - rewrite ns_answer_loop_first_found. unfold bind.
    destruct (first_found (address_path recur target_name qtype)
                (answer resp) s1) as [[found|] s2|e s2|];
      [done | | done | done].
    unfold ret. rewrite IH. by unfold bind.
  - unfold ret. rewrite IH. by unfold bind.
Qed.

End Glueless.

(** C2, as the code has it: at a candidate reached with the name asked
    still in the local variable, on a response with empty answer and
    additional sections the host names visited are those of the authority
    records whose type is not 6 (SOA); the engine returns the first
    result that is not absent among their paths, in order: for each host
    name, its resolution with type A from the root servers, then, for
    each answer of that resolution, the Glue Extractor on it and the
    resolution of the name and type asked with the address set obtained.
    When no path gives a result it goes on to the remaining candidates. *)
Theorem glueless_referral udp fuel target_name qtype tried server rest
    s s1 response :
  exhausted udp (_recurlookup udp fuel) (make_query target_name qtype) qtype
    tried target_name target_name s s1 →
  udp (udp_log s1) (UdpCall target_name qtype server) = Some response →
  answer response = [] →
  additional response = [] →
  let resolve := _recurlookup udp fuel in
  let hosts := visit_order (authority response) [] in
  let s2 := log_call (UdpCall target_name qtype server) s1 in
  (∀ h, h ∈ hosts
        ↔ ∃ auth, auth ∈ flat_map rr_items (authority response)
                  ∧ rdtype auth ≠ 6
                  ∧ h = Py.drop_last (rd_str auth))
  ∧ _recurlookup udp (S fuel) target_name qtype (tried ++ server :: rest) s
    = bind (first_found (host_path resolve target_name qtype) hosts)
        (λ r, match r with
              | Some found => ret (Some found)
              | None =>
                  server_loop udp resolve (make_query target_name qtype)
                    qtype rest target_name
              end) s2.
Proof.
  intros Hex Hudp Hanswer Hadditional resolve hosts s2. split.
  - intros h. rewrite <- elem_of_ns_hostnames. unfold hosts.
    rewrite elem_of_visit_order. split.
    + intros [_ [Hh|Hh]]; [| done]. by apply not_elem_of_nil in Hh.
    + intros Hh. split; [| by right].
      intros Hnil. rewrite Hnil in Hh. by apply not_elem_of_nil in Hh.
  - rewrite recurlookup_unfold.
    erewrite server_loop_exhausted by exact Hex.
    rewrite server_loop_cons. unfold bind at 1.
    rewrite (server_body_glueless udp _ (make_query target_name qtype) qtype
               server target_name s1 response Hudp Hanswer Hadditional).
    unfold bind at 1.
    rewrite authority_loop_visit, host_loop_first_found.
    unfold bind, ret, make_query. cbn [fst snd]. fold s2 hosts resolve.
    by destruct (first_found (host_path resolve target_name qtype) hosts s2)
      as [[found|] s3|e s3|].
Qed.

Lemma glueless_referral_witness :
  let resolve := _recurlookup Net.glueless_net 2 in
  let hosts := visit_order (authority Net.glueless_referral_msg) [] in
  let s2 := log_call (UdpCall "example.com." 1 "198.41.0.4") initial_state in
  (∀ h, h ∈ hosts
        ↔ ∃ auth, auth ∈ flat_map rr_items
                           (authority Net.glueless_referral_msg)
                  ∧ rdtype auth ≠ 6
                  ∧ h = Py.drop_last (rd_str auth))
  ∧ _recurlookup Net.glueless_net 3 "example.com." 1 ["198.41.0.4"]
      initial_state
    = bind (first_found (host_path resolve "example.com." 1) hosts)
        (λ r, match r with
              | Some found => ret (Some found)
              | None =>
                  server_loop Net.glueless_net resolve
                    (make_query "example.com." 1) 1 [] "example.com."
              end) s2.
Proof.
  apply (glueless_referral Net.glueless_net 2 "example.com." 1 []
           "198.41.0.4" [] initial_state initial_state
           Net.glueless_referral_msg).
  - constructor.
  - reflexivity.
  - reflexivity.
  - reflexivity.
Defined.

(** On that network the referral is followed to the answer: the name
    server's address comes from the root, and the server it names
    answers for the name asked. *)
Example glueless_net_resolves :
  ∃ s',
    _recurlookup Net.glueless_net 3 "example.com." 1 ["198.41.0.4"]
      initial_state
    = Done (Some (Message [Net.A_rec "example.com." "93.184.216.34"] [] []))
        s'
    ∧ udp_log s' = [UdpCall "example.com." 1 "198.41.0.4";
                    UdpCall "ns.example.com" 1 "198.41.0.4";
                    UdpCall "example.com." 1 "93.184.216.34"].
Proof. eexists. split; [vm_compute; reflexivity | reflexivity]. Qed.

(** C2 as stated fails: the authority record of type 5 (CNAME) is not
    skipped, its name is resolved from the root servers (twice, once
    after each authority group); the record skipped is the one of type 6,
    so the host names visited are not those of the records that are not
    CNAMEs. *)
Lemma glueless_referral_cname_not_skipped :
  (∃ s',
      _recurlookup Net.odd_net 2 "example.com." 1 ["198.41.0.4"]
        initial_state = Done None s'
      ∧ UdpCall "alias.example.com" 1 "198.41.0.4" ∈ udp_log s'
      ∧ length (udp_log s') = 27%nat)
  ∧ visit_order (authority Net.odd_referral) []
    = ["alias.example.com"; "alias.example.com"]
  ∧ ns_hostnames 5 (flat_map rr_items (authority Net.odd_referral))
    = ["ns1.example.com. admin.example.com. 1 7200 900 86400 6"]
  ∧ ¬ (∀ h, h ∈ visit_order (authority Net.odd_referral) []
            ↔ h ∈ ns_hostnames 5
                    (flat_map rr_items (authority Net.odd_referral))).
Proof.
  split; [| split; [reflexivity | split; [reflexivity |]]].
  - eexists. split; [vm_compute; reflexivity |]. split; [| reflexivity].
    simpl. apply list_elem_of_further, list_elem_of_here.
  - intros Hiff.
    assert ("alias.example.com"
            ∈ ["ns1.example.com. admin.example.com. 1 7200 900 86400 6"])
      as Hin.
    { apply (Hiff "alias.example.com"). apply list_elem_of_here. }
    apply list_elem_of_singleton in Hin. discriminate Hin.
Qed.

(** ** Referrals with glue *)

(** At a candidate whose response has an empty answer section and glue,
    the engine feeds every additional record to the Glue Extractor,
    gathers the addresses and returns the result of resolving, with them,
    the name then held by the local variable; the remaining candidates
    are not tried. *)
Lemma glue_referral udp fuel target_name qtype tried server rest t' s s1
    response :
  exhausted udp (_recurlookup udp fuel) (make_query target_name qtype) qtype
    tried target_name t' s s1 →
  udp (udp_log s1) (UdpCall target_name qtype server) = Some response →
  answer response = [] →
  additional response ≠ [] →
  _recurlookup udp (S fuel) target_name qtype (tried ++ server :: rest) s
  = bind (additional_loop (additional response) [])
      (λ glue, _recurlookup udp fuel t' qtype glue)
      (log_call (UdpCall target_name qtype server) s1).
Proof.
  intros Hex Hudp Hanswer Hadditional.
  rewrite recurlookup_unfold.
  erewrite server_loop_exhausted by exact Hex.
  rewrite server_loop_cons. unfold bind at 1.
  rewrite (server_body_glue udp _ (make_query target_name qtype) qtype
             server t' s1 response Hudp Hanswer Hadditional).
  unfold bind, ret, make_query. cbn [fst snd].
  destruct (additional_loop (additional response) [] _)
    as [glue s3|e s3|]; [| done | done].
  by destruct (_recurlookup udp fuel t' qtype glue s3).
Qed.

(** The candidate list handed on is the concatenation, in order, of what
    the Glue Extractor returned for each additional record. *)
Lemma additional_loop_gathers sections acc s glue s' :
  additional_loop sections acc s = Done glue s' →
  ∃ per_record,
    glue = acc ++ concat per_record
    ∧ Forall2 (λ rs addrs, ∃ sa sb,
                 dns_caching (rr_str rs) sa = Done addrs sb)
        sections per_record.
Proof.
  revert acc s. induction sections as [|x sections IH]; intros acc s.
  - intros [= <- _]. exists []. simpl. by rewrite app_nil_r.
  - simpl. unfold bind.
    destruct (dns_caching (rr_str x) s) as [addr s1|e s1|] eqn:Hx;
      [| done | done].
    intros (per_record & -> & Hall)%IH.
    exists (addr :: per_record). simpl. rewrite <- app_assoc.
    split; [done |]. constructor; [eauto | done].
Qed.

(** C3 fails on the code when an earlier candidate answered with records
    that neither have the requested type nor are CNAMEs: the local name
    was overwritten by the walk, and the glue referral of the next
    candidate is followed for that text, not for the name asked. *)
Theorem glue_referral_after_unmatched_answer :
  (∃ s',
      _recurlookup Net.clobber_net 3 "example.com." 1
        ["10.0.0.8"; "10.0.0.9"] initial_state = Done None s'
      ∧ udp_log s' = [UdpCall "example.com." 1 "10.0.0.8";
                      UdpCall "example.com." 1 "10.0.0.9";
                      UdpCall "10 mail.example.com" 1 "10.0.0.1"])
  ∧ (∃ s',
        _recurlookup Net.clobber_net 3 "example.com." 1 ["10.0.0.9"]
          initial_state
        = Done (Some (Message [Net.A_rec "example.com." "93.184.216.34"]
                        [] [])) s'
        ∧ udp_log s' = [UdpCall "example.com." 1 "10.0.0.9";
                        UdpCall "example.com." 1 "10.0.0.1"]).
Proof.
  split; eexists; (split; [vm_compute; reflexivity | reflexivity]).
Qed.

(** ** Referral chains with glue *)





(** ** The Answer Aggregator *)

Lemma cname_answer_loop_all name answers cnames t :
  cname_answer_loop name answers cnames t
  = (cnames ++ map (λ answer, CnameEntry answer name) answers,
     clobbered answers t).
Proof.
  revert cnames t. induction answers as [|a answers IH]; intros cnames t.
  - simpl. by rewrite app_nil_r.
  - simpl. rewrite IH, <- app_assoc. simpl.
    by rewrite (clobbered_cons a answers t).
Qed.

(** The CNAME loop keeps every record of the answer section, whatever its
    type, and leaves the text of the last one as the target. *)
Lemma cname_loop_all name sections cnames t :
  cname_loop name sections cnames t
  = (cnames ++ map (λ answer, CnameEntry answer name)
                 (flat_map rr_items sections),
     clobbered (flat_map rr_items sections) t).
Proof.
  revert cnames t. induction sections as [|rs sections IH]; intros cnames t.
  - simpl. by rewrite app_nil_r.
  - simpl. rewrite cname_answer_loop_all, IH.
    by rewrite fmap_app, clobbered_app, <- app_assoc.
Qed.

Lemma addr_answer_loop_filter code a_name answers records :
  addr_answer_loop code a_name answers records
  = records ++ map (λ answer, AddrEntry a_name (rd_str answer))
                 (filter (λ answer, rdtype answer = code) answers).
Proof.
  revert records. induction answers as [|a answers IH]; intros records.
  - simpl. by rewrite app_nil_r.
  - simpl. rewrite filter_cons. destruct (decide (rdtype a = code)).
    + rewrite IH, <- app_assoc. done.
    + apply IH.
Qed.

(** The A and AAAA loops keep the records of the type tested only. *)
Lemma addr_loop_filter code sections records :
  addr_loop code sections records
  = records
    ++ flat_map (λ rs, map (λ answer, AddrEntry (rr_name rs) (rd_str answer))
                         (filter (λ answer, rdtype answer = code)
                            (rr_items rs))) sections.
Proof.
  revert records. induction sections as [|rs sections IH]; intros records.
  - simpl. by rewrite app_nil_r.
  - simpl. by rewrite IH, addr_answer_loop_filter, <- app_assoc.
Qed.

Lemma mx_answer_loop_filter mx_name answers records :
  mx_answer_loop mx_name answers records
  = records ++ map (λ answer, MxEntry mx_name (preference answer)
                                (exchange answer))
                 (filter (λ answer, rdtype answer = 15) answers).
Proof.
  revert records. induction answers as [|a answers IH]; intros records.
  - simpl. by rewrite app_nil_r.
  - simpl. rewrite filter_cons. destruct (decide (rdtype a = 15)).
    + rewrite IH, <- app_assoc. done.
    + apply IH.
Qed.

(** The MX loop keeps the records of type 15 only. *)
Lemma mx_loop_filter sections records :
  mx_loop sections records
  = records
    ++ flat_map (λ rs, map (λ answer, MxEntry (rr_name rs) (preference answer)
                                        (exchange answer))
                         (filter (λ answer, rdtype answer = 15)
                            (rr_items rs))) sections.
Proof.
  revert records. induction sections as [|rs sections IH]; intros records.
  - simpl. by rewrite app_nil_r.
  - simpl. by rewrite IH, mx_answer_loop_filter, <- app_assoc.
Qed.

(** C6 fails on the code for the CNAME lookup: its loop has no type test,
    so an address record that follows the alias in the answer section
    becomes a CNAME entry, and its text, less the last character, the name
    the A, AAAA and MX lookups ask for. *)
Theorem collect_results_cname_unfiltered :
  ∃ s',
    collect_results Net.mixed_net Net.from_text 2 "www.example.com"
      initial_state
    = Done (FullResponse
              [CnameEntry (Rdata 5 "example.com." 0 "") "www.example.com";
               CnameEntry (Rdata 1 "93.184.216.34" 0 "") "www.example.com"]
              [] [] []) s'
    ∧ UdpCall "93.184.216.3" 1 "198.41.0.4" ∈ udp_log s'
    ∧ UdpCall "93.184.216.3" 28 "198.41.0.4" ∈ udp_log s'
    ∧ UdpCall "93.184.216.3" 15 "198.41.0.4" ∈ udp_log s'.
Proof.
  eexists. split; [vm_compute; reflexivity |].
  repeat split; apply (bool_decide_unpack _); vm_compute; exact I.
Qed.

(** ** The command-line layer: deduplication and memoization *)

Lemma print_lines_nil s : print_lines [] s = s.
Proof. destruct s. unfold print_lines. simpl. by rewrite app_nil_r. Qed.

Lemma print_lines_app l1 l2 s :
  print_lines l2 (print_lines l1 s) = print_lines (l1 ++ l2) s.
Proof. unfold print_lines. simpl. by rewrite app_assoc. Qed.

Lemma print_all_lines lines s : print_all lines s = Done tt (print_lines lines s).
Proof.
  revert s. induction lines as [|l lines IH]; intros s.
  - by rewrite print_lines_nil.
  - simpl. unfold bind, modify. rewrite IH. f_equal.
    unfold print_lines, print_line. simpl. by rewrite <- app_assoc.
Qed.

Lemma print_results_lines results s :
  print_results results s = Done tt (print_lines (results_lines results) s).
Proof.
  unfold print_results, results_lines, bind.
  by rewrite !print_all_lines, !print_lines_app.
Qed.

Lemma dedup_loop_spec names new_list :
  NoDup new_list →
  NoDup (dedup_loop names new_list)
  ∧ ∀ x, x ∈ dedup_loop names new_list ↔ x ∈ new_list ∨ x ∈ names.
Proof.
  revert new_list. induction names as [|i names IH]; intros new_list Hnd.
  - simpl. split; [done |]. intros x. split; [by left |].
    by intros [?|?%not_elem_of_nil].
  - simpl. destruct (decide (i ∈ new_list)) as [Hin|Hin].
    + destruct (IH new_list Hnd) as [Hnd' Hmem]. split; [done |].
      intros x. rewrite Hmem, elem_of_cons. split; [tauto |].
      intros [?|[->|?]]; auto.
    + assert (NoDup (new_list ++ [i])) as Hnd'.
      { apply NoDup_app. split; [done |]. split; [| apply NoDup_singleton].
        intros x Hx ->%list_elem_of_singleton. done. }
      destruct (IH _ Hnd') as [Hnd'' Hmem]. split; [done |].
      intros x. rewrite Hmem, elem_of_app, list_elem_of_singleton, elem_of_cons.
      tauto.
Qed.

Section Memo.

Variable udp : list udp_call → udp_call → option message.
Variable from_text : string → string.

Lemma main_body_cached fuel name s results :
  domain_cache s !! name = Some results →
  main_body udp from_text fuel name s
  = Done tt (print_lines (results_lines results) s).
Proof.
  intros Hc. unfold main_body, bind, get_state. rewrite Hc.
  apply print_results_lines.
Qed.

Lemma main_body_fresh fuel name s :
  domain_cache s !! name = None →
  main_body udp from_text fuel name s
  = compute_body udp from_text fuel name s.
Proof.
  intros Hc. unfold main_body, compute_body.
  unfold bind at 1, get_state. by rewrite Hc.
Qed.

(** A fresh name's turn stores its aggregate next to the entries already
    there. *)
Lemma compute_body_stores fuel name s s1 :
  compute_body udp from_text fuel name s = Done tt s1 →
  ∃ results,
    domain_cache s1 = <[name := results]> (domain_cache s).
Proof.
  unfold compute_body, bind, get_state, modify.
  pose proof (grows_collect_results udp from_text fuel name s) as Hg.
  destruct (collect_results udp from_text fuel name s)
    as [results s0|e s0|]; [| done | done].
  rewrite print_results_lines. intros [= <-].
  exists results. simpl. by rewrite (ext_domain _ _ Hg).
Qed.

(** A turn keeps what the aggregate cache held and leaves the name in
    it. *)
Lemma main_body_keeps fuel name s s1 :
  main_body udp from_text fuel name s = Done tt s1 →
  is_Some (domain_cache s1 !! name)
  ∧ ∀ k v, domain_cache s !! k = Some v → domain_cache s1 !! k = Some v.
Proof.
  destruct (domain_cache s !! name) as [results|] eqn:Hc.
  - rewrite (main_body_cached _ _ _ _ Hc). intros [= <-]. simpl.
    rewrite Hc. eauto.
  - rewrite (main_body_fresh _ _ _ Hc).
    intros (results & Hs1)%compute_body_stores. rewrite Hs1. split.
    + rewrite lookup_insert_eq. eauto.
    + intros k v Hk. rewrite lookup_insert_ne; [done |]. congruence.
Qed.

Lemma main_loop_fresh fuel names s :
  NoDup names →
  Forall (λ x, domain_cache s !! x = None) names →
  main_loop udp from_text fuel names s
  = compute_each udp from_text fuel names s.
Proof.
  intros Hnd. revert s.
  induction Hnd as [|name names Hname Hnd IH]; intros s Hfresh; [done |].
  apply Forall_cons in Hfresh as [Hn Hrest]. simpl.
  unfold bind at 1 2. rewrite (main_body_fresh _ _ _ Hn).
  destruct (compute_body udp from_text fuel name s) as [[] s1|e s1|] eqn:Hb;
    [| done | done].
  apply IH. apply compute_body_stores in Hb as (results & Hs1).
  rewrite Hs1. eapply Forall_impl; [apply Forall_and; split;
    [exact Hrest | apply Forall_forall; intros x Hx; exact Hx] |].
  intros x [Hx Hin]. simpl in *. rewrite lookup_insert_ne; [done |].
  intros ->. done.
Qed.

Lemma main_loop_memoized fuel names s s' :
  main_loop udp from_text fuel names s = Done tt s' →
  (∀ k v, domain_cache s !! k = Some v → domain_cache s' !! k = Some v)
  ∧ Forall (λ name, is_Some (domain_cache s' !! name)) names.
Proof.
  revert s. induction names as [|name names IH]; intros s.
  - intros [= <-]. split; [done | constructor].
  - simpl. unfold bind at 1.
    destruct (main_body udp from_text fuel name s) as [[] s1|e s1|] eqn:Hb;
      [| done | done].
    intros Hrest. apply main_body_keeps in Hb as [[v Hv] Hkeep].
    apply IH in Hrest as [Hkeep' Hall]. split.
    + intros k w Hk. auto.
    + constructor; [| done]. eauto.
Qed.

End Memo.

(** The specification's first end-to-end scenario: a referral without
    glue to a name server whose address the root gives. *)
Example main_prints_address :
  ∃ s',
    main Net.glueless_net Net.from_text 2 ["example.com"] initial_state
    = Done tt s'
    ∧ stdout s' = ["example.com. has address 93.184.216.34"].
Proof. eexists. split; [vm_compute; reflexivity | reflexivity]. Qed.

(** C8: the names processed are the distinct names of the input; started
    with an empty aggregate cache, a run resolves, stores and prints each
    of them once; after the run every input name is cached, and
    processing it again prints the cached aggregate and changes nothing
    else (no transport call), whatever the budget. *)
Theorem main_memoizes udp from_text fuel names s :
  domain_cache s = ∅ →
  let new_list := dedup_loop names [] in
  NoDup new_list
  ∧ (∀ x, x ∈ new_list ↔ x ∈ names)
  ∧ main udp from_text fuel names s
    = compute_each udp from_text fuel new_list s
  ∧ match main udp from_text fuel names s with
    | Done _ s' => Forall (memoized udp from_text s') names
    | Raised _ _ | OutOfFuel => True
    end.
Proof.
  intros Hempty new_list.
  destruct (dedup_loop_spec names [] (NoDup_nil_2)) as [Hnd Hmem].
  fold new_list in Hnd, Hmem.
  assert (∀ x, x ∈ new_list ↔ x ∈ names) as Hmem'.
  { intros x. rewrite Hmem. split; [| by right].
    by intros [?%not_elem_of_nil|?]. }
  repeat split; [done | apply Hmem' | apply Hmem' | |].
  - unfold main. fold new_list. apply main_loop_fresh; [done |].
    apply Forall_forall. intros x _. by rewrite Hempty, lookup_empty.
  - destruct (main udp from_text fuel names s) as [[] s'|e s'|] eqn:Hrun;
      [| done | done].
    unfold main in Hrun. fold new_list in Hrun.
    apply main_loop_memoized in Hrun as [_ Hall].
    apply Forall_forall. intros name Hname. apply Hmem' in Hname.
    rewrite Forall_forall in Hall. destruct (Hall name Hname) as [results Hr].
    exists results. split; [done |]. intros fuel'.
    by apply main_body_cached.
Qed.

Lemma main_memoizes_witness :
  let names := ["example.com"; "example.com"] in
  let new_list := dedup_loop names [] in
  NoDup new_list
  ∧ (∀ x, x ∈ new_list ↔ x ∈ names)
  ∧ main Net.glue_net Net.from_text 3 names initial_state
    = compute_each Net.glue_net Net.from_text 3 new_list initial_state
  ∧ match main Net.glue_net Net.from_text 3 names initial_state with
    | Done _ s' => Forall (memoized Net.glue_net Net.from_text s') names
    | Raised _ _ | OutOfFuel => True
    end.
Proof.
  apply (main_memoizes Net.glue_net Net.from_text 3
           ["example.com"; "example.com"] initial_state).
  reflexivity.
Defined.


(** ** The recursion budget only bounds the depth

    A larger budget gives the same outcome as a smaller one under which
    the engine came to an end. *)

Lemma refines_refl {A} (m : M A) : refines m m.
Proof. intros s. by right. Qed.

Lemma refines_bind {A B} (m m' : M A) (k k' : A → M B) :
  refines m m' → (∀ a, refines (k a) (k' a)) → refines (bind m k) (bind m' k').
Proof.
  intros Hm Hk s. unfold bind. destruct (Hm s) as [Hout | Heq]; [left; by rewrite Hout | rewrite Heq].
  destruct (m' s) as [a s1|e s1|]; [apply Hk | by right | by right].
Qed.

Section Budget.

Variable udp : list udp_call → udp_call → option message.
Variables recur recur' : string → Z → list string → M (option message).
Hypothesis recur_refines : ∀ t q l, refines (recur t q l) (recur' t q l).

Lemma refines_ns_answer_loop t q answers :
  refines (ns_answer_loop recur t q answers)
    (ns_answer_loop recur' t q answers).
Proof.
  induction answers as [|a answers IH]; simpl; [apply refines_refl |].
  apply refines_bind; [apply refines_refl | intros addr].
  apply refines_bind; [apply recur_refines | intros [r|]];
    [apply refines_refl | apply IH].
Qed.

Lemma refines_host_loop t q hosts :
  refines (host_loop recur t q hosts) (host_loop recur' t q hosts).
Proof.
  induction hosts as [|h hosts IH]; simpl; [apply refines_refl |].
  apply refines_bind; [apply recur_refines | intros resp].
  apply refines_bind.
  - destruct resp; [apply refines_ns_answer_loop | apply refines_refl].
  - intros [|r]; [apply IH | apply refines_refl].
Qed.

Lemma refines_authority_loop t q sections ns :
  refines (authority_loop recur t q sections ns)
    (authority_loop recur' t q sections ns).
Proof.
  revert ns. induction sections as [|a sections IH]; intros ns; simpl;
    [apply refines_refl |].
  apply refines_bind; [apply refines_host_loop |].
  intros [|r]; [apply IH | apply refines_refl].
Qed.

Lemma refines_answer_loop resp q answers t :
  refines (answer_loop recur resp q answers t)
    (answer_loop recur' resp q answers t).
Proof.
  revert t. induction answers as [|a answers IH]; intros t; simpl;
    [apply refines_refl |].
  destruct (decide (rdtype a = q)); [apply refines_refl |].
  destruct (decide (rdtype a = 5)); [| apply IH].
  apply refines_bind; [apply recur_refines | intros; apply refines_refl].
Qed.

Lemma refines_answers_loop resp q sections t :
  refines (answers_loop recur resp q sections t)
    (answers_loop recur' resp q sections t).
Proof.
  revert t. induction sections as [|a sections IH]; intros t; simpl;
    [apply refines_refl |].
  apply refines_bind; [apply refines_answer_loop |].
  intros [[|r] t']; [apply IH | apply refines_refl].
Qed.

Lemma refines_server_body oq q server t :
  refines (server_body udp recur oq q server t)
    (server_body udp recur' oq q server t).
Proof.
  unfold server_body.
  apply refines_bind; [apply refines_refl | intros [resp|]];
    [| apply refines_refl].
  destruct (answer resp); [| apply refines_answers_loop].
  destruct (additional resp).
  - apply refines_bind; [apply refines_authority_loop |].
    intros; apply refines_refl.
  - apply refines_bind; [apply refines_refl | intros glue].
    apply refines_bind; [apply recur_refines | intros; apply refines_refl].
Qed.

Lemma refines_server_loop oq q servers t :
  refines (server_loop udp recur oq q servers t)
    (server_loop udp recur' oq q servers t).
Proof.
  revert t. induction servers as [|x servers IH]; intros t; simpl;
    [apply refines_refl |].
  apply refines_bind; [apply refines_server_body |].
  intros [[|r] t']; [apply IH | apply refines_refl].
Qed.

End Budget.

Lemma recurlookup_budget_S udp fuel t q l :
  refines (_recurlookup udp fuel t q l) (_recurlookup udp (S fuel) t q l).
Proof.
  revert t q l. induction fuel as [|fuel IH]; intros t q l.
  - intros s. by left.
  - change (refines
              (match l with
               | [] => ret None
               | _ :: _ =>
                   server_loop udp (_recurlookup udp fuel) (make_query t q) q
                     l t
               end)
              (match l with
               | [] => ret None
               | _ :: _ =>
                   server_loop udp (_recurlookup udp (S fuel))
                     (make_query t q) q l t
               end)).
    destruct l; [apply refines_refl |].
    by apply refines_server_loop.
Qed.

(** Once the engine ends under a budget, it ends the same way under any
    larger one. *)
Lemma recurlookup_budget_mono udp fuel fuel' t q l s :
  (fuel ≤ fuel')%nat →
  _recurlookup udp fuel t q l s ≠ OutOfFuel →
  _recurlookup udp fuel' t q l s = _recurlookup udp fuel t q l s.
Proof.
  induction 1 as [|fuel' Hle IH]; intros Hend; [done |].
  destruct (recurlookup_budget_S udp fuel' t q l s) as [Hout|Heq].
  - rewrite IH in Hout by done. done.
  - rewrite <- Heq. by apply IH.
Qed.


(** * Further properties of the code *)

(** ** The Glue Extractor *)

Lemma index_first_nonempty {A} (x : A) (l : list A) :
  Py.index (x :: l) 0 = Some x.
Proof.
  unfold Py.index. simpl.
  destruct (Z.ltb_spec 0 (Z.pos (Pos.of_succ_nat (length l)))); [done | lia].
Qed.

(** X1: whatever the text, [dns_caching] returns at most one address: the
    last whitespace-separated token when some token is ['A'] (also when
    the text renders several address records), and nothing otherwise. *)
Theorem dns_caching_returns_last_token text s addrs s' :
  dns_caching text s = Done addrs s' →
  addrs = if decide ("A" ∈ Py.split_ws text)
          then option_list (Py.index (Py.split_ws text) (-1))
          else [].
Proof.
  intros Hrun. destruct (decide ("A" ∈ Py.split_ws text)) as [HA|HA].
  - destruct (Py.split_ws text) as [|first rest] eqn:Hts.
    { by apply not_elem_of_nil in HA. }
    pose proof (index_first_nonempty first rest) as Hfirst.
    destruct (index_last_nonempty _ _ Hfirst) as [last Hlast].
    rewrite <- Hts in HA, Hfirst, Hlast. rewrite <- Hts, Hlast. simpl.
    destruct (Py.index (Py.split_on "." first) (-2)) as [key|] eqn:Hkey.
    + rewrite (dns_caching_glue text first last key s HA Hfirst Hlast Hkey)
        in Hrun.
      by injection Hrun as <- _.
    + unfold dns_caching in Hrun.
      rewrite (dns_caching_loop_raises _ first last _ [] s Hfirst Hlast Hkey)
        in Hrun.
      by rewrite decide_True in Hrun by done.
  - rewrite (dns_caching_other text s HA) in Hrun. by injection Hrun as <- _.
Qed.

Lemma dns_caching_returns_last_token_witness :
  ∃ s',
    dns_caching "ns.example.com. 60 IN A 10.0.0.1
ns.example.com. 60 IN A 10.0.0.2" initial_state = Done ["10.0.0.2"] s'
    ∧ ["10.0.0.2"]
      = if decide ("A" ∈ Py.split_ws "ns.example.com. 60 IN A 10.0.0.1
ns.example.com. 60 IN A 10.0.0.2")
        then option_list
               (Py.index (Py.split_ws "ns.example.com. 60 IN A 10.0.0.1
ns.example.com. 60 IN A 10.0.0.2") (-1))
        else [].
Proof.
  eexists. split; [vm_compute; reflexivity |].
  eapply (dns_caching_returns_last_token _ initial_state).
  vm_compute. reflexivity.
Defined.

(** X2: a text with no token ['A'] (an AAAA or NS record, say) gives no
    address and leaves the whole state, the Address Cache included, as it
    was. *)
Theorem dns_caching_ignores_other_records text s :
  "A" ∉ Py.split_ws text →
  dns_caching text s = Done [] s.
Proof. apply dns_caching_loop_no_A. Qed.

Lemma dns_caching_ignores_other_records_witness :
  dns_caching "ns.example.com. 3600 IN AAAA 2001:db8::1" initial_state
  = Done [] initial_state.
Proof.
  apply (dns_caching_ignores_other_records
           "ns.example.com. 3600 IN AAAA 2001:db8::1" initial_state).
  apply (bool_decide_unpack _). vm_compute. exact I.
Defined.

(** ** What resolution leaves alone *)

(** X3: however they end, the engine, the router and the aggregator leave
    the aggregate cache and the output untouched, only append to the
    transport history, only append to the lists of the Address Cache (no
    key or address is dropped), and keep those lists free of duplicates. *)
Theorem resolution_extends_state udp from_text fuel name target_name qtype
    servers_list :
  grows (_recurlookup udp fuel target_name qtype servers_list)
  ∧ grows (lookup udp fuel target_name qtype)
  ∧ grows (collect_results udp from_text fuel name).
Proof.
  split; [| split].
  - apply grows_recurlookup.
  - apply grows_lookup.
  - apply grows_collect_results.
Qed.

(** ** Candidates that all fail *)

Lemma log_calls_app calls1 calls2 s :
  log_calls calls2 (log_calls calls1 s) = log_calls (calls1 ++ calls2) s.
Proof. unfold log_calls. simpl. by rewrite app_assoc. Qed.

Lemma recurlookup_transport_failures udp fuel t q servers s :
  all_fail udp (udp_log s) (calls_to (make_query t q) servers) →
  _recurlookup udp (S fuel) t q servers s
  = Done None (log_calls (calls_to (make_query t q) servers) s).
Proof.
  intros Hfail. destruct servers as [|server rest].
  - simpl. by rewrite log_calls_nil.
  - rewrite (recurlookup_unfold udp fuel t q [] server rest).
    eapply server_loop_all_exhausted. by apply exhausted_all_fail.
Qed.

(** X5: when the transport fails for every candidate, the engine returns
    absent having made exactly one call per candidate, in list order, for
    the name and type asked, and having changed nothing else. *)
Theorem recurlookup_all_fail udp fuel target_name qtype servers s :
  all_fail udp (udp_log s) (calls_to (target_name, qtype) servers) →
  _recurlookup udp (S fuel) target_name qtype servers s
  = Done None (log_calls (calls_to (target_name, qtype) servers) s).
Proof. apply recurlookup_transport_failures. Qed.

Lemma recurlookup_all_fail_witness :
  _recurlookup Net.dead_net 1 "example.com." 28 ROOT_SERVERS initial_state
  = Done None
      (log_calls (calls_to ("example.com.", 28) ROOT_SERVERS) initial_state).
Proof.
  apply (recurlookup_all_fail Net.dead_net 0 "example.com." 28 ROOT_SERVERS
           initial_state).
  simpl. repeat split.
Defined.

(** ** The aggregator's loops *)

(** X16: the A and AAAA loops keep exactly the records of the type
    tested, in order, each under its group's owner name; the MX loop keeps
    exactly the records of type 15 with their preference and exchange. *)
Theorem aggregate_loops_filter code sections :
  addr_loop code sections [] = addr_entries code sections
  ∧ mx_loop sections [] = mx_entries sections.
Proof.
  split.
  - by rewrite addr_loop_filter.
  - by rewrite mx_loop_filter.
Qed.

(** ** The command-line layer *)

Lemma dedup_loop_sublist names new_list :
  ∃ kept,
    dedup_loop names new_list = new_list ++ kept ∧ kept `sublist_of` names.
Proof.
  revert new_list. induction names as [|i names IH]; intros new_list; simpl.
  - exists []. by rewrite app_nil_r.
  - destruct (decide (i ∈ new_list)).
    + destruct (IH new_list) as (kept & -> & Hsub).
      exists kept. split; [done | by constructor].
    + destruct (IH (new_list ++ [i])) as (kept & -> & Hsub).
      exists (i :: kept). rewrite <- app_assoc.
      split; [done | by constructor].
Qed.

Lemma dedup_loop_nodup names new_list :
  NoDup (new_list ++ names) →
  dedup_loop names new_list = new_list ++ names.
Proof.
  revert new_list. induction names as [|i names IH]; intros new_list Hnd.
  - simpl. by rewrite app_nil_r.
  - simpl. apply NoDup_app in Hnd as Hparts.
    destruct Hparts as (_ & Hdisj & _).
    destruct (decide (i ∈ new_list)) as [Hin|Hin].
    { exfalso. apply (Hdisj i Hin). apply list_elem_of_here. }
    rewrite IH; [by rewrite <- app_assoc |].
    by rewrite <- app_assoc.
Qed.

(** X17: deduplication keeps the names in their input order (the result
    is a subsequence of the input) and is idempotent: a list it produced
    passes through unchanged. *)
Theorem dedup_keeps_first_occurrences names :
  dedup_loop names [] `sublist_of` names
  ∧ dedup_loop (dedup_loop names []) [] = dedup_loop names [].
Proof.
  split.
  - destruct (dedup_loop_sublist names []) as (kept & -> & Hsub). done.
  - apply (dedup_loop_nodup (dedup_loop names []) []). simpl.
    apply dedup_loop_spec. constructor.
Qed.

(** X18: [print_results] appends to the output the CNAME lines, then the
    A, AAAA and MX lines, one per entry, and changes nothing else. *)
Theorem print_results_appends results s :
  ∃ s',
    print_results results s = Done tt s'
    ∧ stdout s'
      = stdout s ++ map format_CNAME (fr_CNAME results)
          ++ map format_A (fr_A results)
          ++ map format_AAAA (fr_AAAA results)
          ++ map format_MX (fr_MX results)
    ∧ length (stdout s')
      = (length (stdout s) + length (fr_CNAME results)
         + length (fr_A results) + length (fr_AAAA results)
         + length (fr_MX results))%nat
    ∧ dns_cache s' = dns_cache s
    ∧ domain_cache s' = domain_cache s
    ∧ udp_log s' = udp_log s.
Proof.
  exists (print_lines (results_lines results) s).
  split; [apply print_results_lines |].
  split; [done |]. split; [| done].
  simpl. unfold results_lines. rewrite !length_app, !length_map. lia.
Qed.


(** ** A whole run *)

Lemma extends_run s s' : extends s s' → run_extends s s'.
Proof.
  intros [Hc Hn Hd Hl Ho]. split; [done | done | | done |].
  - intros k v. by rewrite Hd.
  - by rewrite Ho.
Qed.

Lemma run_extends_trans s1 s2 s3 :
  run_extends s1 s2 → run_extends s2 s3 → run_extends s1 s3.
Proof.
  intros [Hc1 Hn1 Hd1 Hl1 Ho1] [Hc2 Hn2 Hd2 Hl2 Ho2]. split.
  - by eapply cache_le_trans.
  - auto.
  - auto.
  - by etrans.
  - by etrans.
Qed.

Lemma run_extends_print lines s : run_extends s (print_lines lines s).
Proof.
  split; simpl;
    [apply cache_le_refl | done | done | done | by apply prefix_app_r].
Qed.

Lemma run_extends_store name results s :
  domain_cache s !! name = None →
  run_extends s
    (set_domain_cache (<[name := results]> (domain_cache s)) s).
Proof.
  intros Hfresh. split; simpl; [apply cache_le_refl | done | | done | done].
  intros k v Hk. rewrite lookup_insert_ne; [done |]. congruence.
Qed.

Lemma run_grows_main_body udp from_text fuel name :
  run_grows (main_body udp from_text fuel name).
Proof.
  intros s. unfold main_body, bind, get_state.
  destruct (domain_cache s !! name) as [cached|] eqn:Hc.
  - rewrite print_results_lines. apply run_extends_print.
  - pose proof (grows_collect_results udp from_text fuel name s) as Hg.
    destruct (collect_results udp from_text fuel name s)
      as [results s0|e s0|]; [| by apply extends_run | done].
    unfold modify. rewrite print_results_lines.
    eapply run_extends_trans; [by apply extends_run |].
    eapply run_extends_trans; [| apply run_extends_print].
    apply run_extends_store. by rewrite (ext_domain _ _ Hg).
Qed.

Lemma run_grows_main_loop udp from_text fuel names :
  run_grows (main_loop udp from_text fuel names).
Proof.
  induction names as [|name names IH]; intros s; simpl.
  - split; [apply cache_le_refl | done..].
  - unfold bind. pose proof (run_grows_main_body udp from_text fuel name s)
      as Hb.
    destruct (main_body udp from_text fuel name s) as [[] s1|e s1|];
      [| done | done].
    specialize (IH s1).
    destruct (main_loop udp from_text fuel names s1) as [[] s2|e s2|];
      [| | done]; by eapply run_extends_trans.
Qed.

(** X4: however a run of [main] ends, no cached aggregate was removed or
    replaced, no key or address left the Address Cache, its lists stayed
    free of duplicates, and the transport history and the output only got
    longer. *)
Theorem main_extends_run udp from_text fuel names :
  run_grows (main udp from_text fuel names).
Proof. apply run_grows_main_loop. Qed.

(** ** Responses that lead nowhere *)

Lemma recurlookup_server_loop udp fuel t q servers s :
  _recurlookup udp (S fuel) t q servers s
  = server_loop udp (_recurlookup udp fuel) (make_query t q) q servers t s.
Proof. by destruct servers. Qed.

Lemma visit_order_all_soa sections :
  Forall (λ auth, rdtype auth = 6) (flat_map rr_items sections) →
  visit_order sections [] = [].
Proof.
  induction sections as [|rs sections IH]; intros Hsoa; [done |].
  simpl in *. apply Forall_app in Hsoa as [Hrs Hrest].
  assert (ns_hostnames 6 (rr_items rs) = []) as ->.
  { unfold ns_hostnames. clear -Hrs.
    induction Hrs as [|auth auths Hauth _ IH]; [done |].
    rewrite filter_cons. by rewrite decide_False by auto. }
  simpl. by apply IH.
Qed.

(** X6: a response with empty answer and additional sections whose
    authority records are all SOA (a denial) does not end the lookup: no
    name-server resolution is started, and the engine goes on exactly as
    if called on the remaining candidates. *)
Theorem negative_response_passes udp fuel target_name qtype server rest s
    response :
  udp (udp_log s) (UdpCall target_name qtype server) = Some response →
  answer response = [] →
  additional response = [] →
  Forall (λ auth, rdtype auth = 6) (flat_map rr_items (authority response)) →
  _recurlookup udp (S fuel) target_name qtype (server :: rest) s
  = _recurlookup udp (S fuel) target_name qtype rest
      (log_call (UdpCall target_name qtype server) s).
Proof.
  intros Hudp Hanswer Hadditional Hsoa.
  rewrite !recurlookup_server_loop, server_loop_cons. unfold bind at 1.
  rewrite (server_body_glueless udp _ (make_query target_name qtype) qtype
             server target_name s response Hudp Hanswer Hadditional).
  unfold bind at 1.
  by rewrite authority_loop_visit, visit_order_all_soa.
Qed.

Lemma negative_response_passes_witness :
  _recurlookup Net.nodata_net 1 "nx.example.com." 1 ["10.0.0.1"; "10.0.0.2"]
    initial_state
  = _recurlookup Net.nodata_net 1 "nx.example.com." 1 ["10.0.0.2"]
      (log_call (UdpCall "nx.example.com." 1 "10.0.0.1") initial_state).
Proof.
  apply (negative_response_passes Net.nodata_net 0 "nx.example.com." 1
           "10.0.0.1" ["10.0.0.2"] initial_state
           (Message []
              [RRset "example.com."
                 [Rdata 6
                    "ns1.example.com. admin.example.com. 1 7200 900 86400 60"
                    0 ""]
                 "example.com. 60 IN SOA ns1.example.com. admin.example.com. 1 7200 900 86400 60"]
              [])).
  - reflexivity.
  - reflexivity.
  - reflexivity.
  - repeat constructor.
Defined.

Lemma additional_loop_no_address sections acc s :
  Forall (λ rs, "A" ∉ Py.split_ws (rr_str rs)) sections →
  additional_loop sections acc s = Done acc s.
Proof.
  intros Hall. revert acc.
  induction Hall as [|rs sections Hrs _ IH]; intros acc; [done |].
  simpl. erewrite bind_Done by by apply dns_caching_other.
  by rewrite app_nil_r.
Qed.

(** X7: a referral whose additional records hold no token ['A'] (IPv6
    glue only, say) ends the lookup as absent at once: the engine recurses
    on an empty candidate list and the candidates still in the list are
    never tried. *)
Theorem glue_without_addresses udp fuel target_name qtype server rest s
    response :
  udp (udp_log s) (UdpCall target_name qtype server) = Some response →
  answer response = [] →
  additional response ≠ [] →
  Forall (λ rs, "A" ∉ Py.split_ws (rr_str rs)) (additional response) →
  _recurlookup udp (S (S fuel)) target_name qtype (server :: rest) s
  = Done None (log_call (UdpCall target_name qtype server) s).
Proof.
  intros Hudp Hanswer Hadditional Hno.
  pose proof (glue_referral udp (S fuel) target_name qtype [] server rest
                target_name s s response (exhausted_nil _ _ _ _ _ _) Hudp
                Hanswer Hadditional) as Hglue.
  change ([] ++ server :: rest) with (server :: rest) in Hglue.
  rewrite Hglue.
  by erewrite bind_Done by by apply additional_loop_no_address.
Qed.

Lemma glue_without_addresses_witness :
  _recurlookup Net.v6_glue_net 2 "example.com." 1 ["10.0.0.9"; "10.0.0.1"]
    initial_state
  = Done None (log_call (UdpCall "example.com." 1 "10.0.0.9") initial_state).
Proof.
  apply (glue_without_addresses Net.v6_glue_net 0 "example.com." 1
           "10.0.0.9" ["10.0.0.1"] initial_state
           (Message [] [Net.NS_rec "example.com." "ns.example.com."]
              [RRset "ns.example.com." [Rdata 28 "2001:db8::1" 0 ""]
                 "ns.example.com. 3600 IN AAAA 2001:db8::1"])).
  - reflexivity.
  - reflexivity.
  - discriminate.
  - constructor; [| constructor].
    apply (bool_decide_unpack _). vm_compute. exact I.
Defined.

(** X8: when the last candidate's answer section holds no record of the
    requested type and no CNAME, the engine returns absent, not that
    response. *)
Theorem answer_without_match_is_absent udp fuel target_name qtype tried
    server t' s s1 response :
  exhausted udp (_recurlookup udp fuel) (make_query target_name qtype) qtype
    tried target_name t' s s1 →
  udp (udp_log s1) (UdpCall target_name qtype server) = Some response →
  answer response ≠ [] →
  Forall (λ x, rdtype x ≠ qtype ∧ rdtype x ≠ 5)
    (flat_map rr_items (answer response)) →
  _recurlookup udp (S fuel) target_name qtype (tried ++ [server]) s
  = Done None (log_call (UdpCall target_name qtype server) s1).
Proof.
  intros Hex Hudp Hanswer Hnone.
  rewrite recurlookup_unfold.
  erewrite server_loop_exhausted by exact Hex.
  rewrite server_loop_cons. unfold bind at 1.
  rewrite (server_body_answers udp _ (make_query target_name qtype) qtype
             server t' s1 response Hudp Hanswer).
  rewrite answers_loop_irrelevant; [done |].
  eapply Forall_impl; [exact Hnone |]. intros x [Hq H5]. unfold relevant.
  by rewrite !bool_decide_eq_false_2.
Qed.

Lemma answer_without_match_is_absent_witness :
  _recurlookup Net.clobber_net 1 "example.com." 1 ["10.0.0.8"] initial_state
  = Done None (log_call (UdpCall "example.com." 1 "10.0.0.8") initial_state).
Proof.
  apply (answer_without_match_is_absent Net.clobber_net 0 "example.com." 1
           [] "10.0.0.8" "example.com." initial_state initial_state
           (Message
              [RRset "example.com." [Rdata 15 "10 mail.example.com." 10
                                       "mail.example.com."]
                 "example.com. 3600 IN MX 10 mail.example.com."] [] [])).
  - constructor.
  - reflexivity.
  - discriminate.
  - repeat constructor; discriminate.
Defined.

(** ** Where a returned response comes from *)

Lemma post_rel_bind {A B} (Q : state → A → state → Prop)
    (P : state → B → state → Prop) (m : M A) (k : A → M B) :
  post_rel Q m →
  (∀ s a s1 b s', Q s a s1 → k a s1 = Done b s' → P s b s') →
  post_rel P (bind m k).
Proof.
  intros Hm Hk s b s'. unfold bind.
  destruct (m s) as [a s1|e s1|] eqn:Hms; [| done | done].
  apply Hk. by apply Hm.
Qed.

Lemma grows_post_rel {A} (m : M A) :
  grows m → post_rel (λ s _ s1, extends s s1) m.
Proof. intros Hg s a s' Hrun. specialize (Hg s). by rewrite Hrun in Hg. Qed.

Lemma heard_since_earlier udp q s0 s1 r s' :
  extends s0 s1 → heard_since udp q s1 r s' → heard_since udp q s0 r s'.
Proof.
  intros Hext. destruct r as [response|]; [| done].
  intros (log & c & rest & Hlog & Hpre & Hudp & Hq).
  exists log, c, rest. repeat split; try done.
  etrans; [apply (ext_log _ _ Hext) | done].
Qed.

Lemma flow_heard_since_earlier udp q s0 s1 f s' :
  extends s0 s1 → flow_heard_since udp q s1 f s' →
  flow_heard_since udp q s0 f s'.
Proof. destruct f; [done | apply heard_since_earlier]. Qed.

Section HeardSince.

Variable udp : list udp_call → udp_call → option message.
Variable q : Z.
Variable recur : string → Z → list string → M (option message).
Hypothesis grows_recur : ∀ t qt l, grows (recur t qt l).
Hypothesis recur_heard : ∀ t l, post_rel (heard_since udp q) (recur t q l).

Lemma heard_ns_answer_loop t answers :
  post_rel (flow_heard_since udp q) (ns_answer_loop recur t q answers).
Proof.
  induction answers as [|x answers IH]; simpl.
  - by intros s f s' [= <- _].
  - eapply post_rel_bind; [apply grows_post_rel, grows_dns_caching |].
    intros s addr s1 f s' Hext. unfold bind.
    destruct (recur t q addr s1) as [[r|] s2|e s2|] eqn:Hrec;
      [| | done | done].
    + intros [= <- <-].
      apply (heard_since_earlier udp q s s1 (Some r) s2 Hext).
      by apply (recur_heard t addr).
    + intros Hrest. eapply flow_heard_since_earlier; [| by eapply IH].
      eapply extends_trans; [exact Hext |].
      pose proof (grows_recur t q addr s1) as Hg. by rewrite Hrec in Hg.
Qed.

Lemma heard_host_loop t hosts :
  post_rel (flow_heard_since udp q) (host_loop recur t q hosts).
Proof.
  induction hosts as [|h hosts IH]; simpl.
  - by intros s f s' [= <- _].
  - eapply post_rel_bind; [apply grows_post_rel, grows_recur |].
    intros s resp s1 f s' Hext. unfold bind.
    destruct resp as [resp|].
    + pose proof (grows_ns_answer_loop recur grows_recur t q (answer resp) s1)
        as Hg.
      destruct (ns_answer_loop recur t q (answer resp) s1)
        as [[|r] s2|e s2|] eqn:Hns; [| | done | done].
      * intros Hrest. eapply flow_heard_since_earlier; [| by eapply IH].
        by eapply extends_trans.
      * intros [= <- <-]. eapply flow_heard_since_earlier; [exact Hext |].
        by apply (heard_ns_answer_loop t (answer resp) s1).
    + simpl. intros Hrest.
      eapply flow_heard_since_earlier; [exact Hext | by eapply IH].
Qed.

Lemma heard_authority_loop t sections ns :
  post_rel (flow_heard_since udp q) (authority_loop recur t q sections ns).
Proof.
  revert ns. induction sections as [|rs sections IH]; intros ns; simpl.
  - by intros s f s' [= <- _].
  - intros s f s'. unfold bind.
    pose proof (grows_host_loop recur grows_recur t q
                  (auth_loop (rr_items rs) ns) s) as Hg.
    destruct (host_loop recur t q (auth_loop (rr_items rs) ns) s)
      as [[|r] s1|e s1|] eqn:Hhost; [| | done | done].
    + intros Hrest. eapply flow_heard_since_earlier; [exact Hg |].
      by eapply IH.
    + intros [= <- <-].
      by apply (heard_host_loop t (auth_loop (rr_items rs) ns) s).
Qed.

Lemma heard_server_body oq server t :
  oq.2 = q →
  post_rel (λ s ft s', flow_heard_since udp q s ft.1 s')
    (server_body udp recur oq q server t).
Proof.
  intros Hoq s ft s'. unfold server_body, query_udp. unfold bind at 1.
  set (c := UdpCall oq.1 oq.2 server).
  pose proof (extends_log_call c s) as Hcall.
  destruct (udp (udp_log s) c) as [response|] eqn:Hudp;
    [| by intros [= <- _]].
  destruct (answer response) as [|rs0 sections0] eqn:Hanswer.
  - destruct (additional response) as [|g0 glue0].
    + unfold bind.
      destruct (authority_loop recur t q (authority response) []
                  (log_call c s)) as [f s2|e s2|] eqn:Hauth; [| done | done].
      intros [= <- <-].
      apply (flow_heard_since_earlier udp q s (log_call c s) f s2 Hcall).
      by apply (heard_authority_loop t (authority response) [] _ _ _ Hauth).
    + unfold bind.
      pose proof (grows_additional_loop (g0 :: glue0) [] (log_call c s))
        as Hg.
      destruct (additional_loop (g0 :: glue0) [] (log_call c s))
        as [glue s2|e s2|]; [| done | done].
      destruct (recur t q glue s2) as [r s3|e s3|] eqn:Hrec; [| done | done].
      intros [= <- <-].
      apply (heard_since_earlier udp q s s2 r s3);
        [by eapply extends_trans |].
      by apply (recur_heard t glue).
  - rewrite <- Hanswer.
    destruct (first_relevant q (flat_map rr_items (answer response)))
      as [Hirr|(pre & a & post' & Hflat & Hpre & Ha)].
    + rewrite answers_loop_irrelevant by done. by intros [= <- _].
    + erewrite answers_loop_first by done. unfold decided.
      destruct (decide (rdtype a = q)).
      * intros [= <- <-]. exists (udp_log s), c, [].
        by repeat split.
      * unfold bind.
        destruct (recur (Py.drop_last (rd_str a)) q ROOT_SERVERS
                    (log_call c s)) as [r s3|e s3|] eqn:Hrec;
          [| done | done].
        intros [= <- <-].
        apply (heard_since_earlier udp q s (log_call c s) r s3 Hcall).
        by apply (recur_heard (Py.drop_last (rd_str a)) ROOT_SERVERS).
Qed.

Lemma heard_server_loop oq servers t :
  oq.2 = q →
  post_rel (heard_since udp q) (server_loop udp recur oq q servers t).
Proof.
  intros Hoq. revert t.
  induction servers as [|server servers IH]; intros t; simpl.
  - by intros s r s' [= <- _].
  - intros s r s'. unfold bind.
    pose proof (grows_server_body udp recur grows_recur oq q server t s)
      as Hg.
    destruct (server_body udp recur oq q server t s)
      as [[[|r0] t1] s1|e s1|] eqn:Hbody; [| | done | done].
    + intros Hrest. eapply heard_since_earlier; [exact Hg |].
      by eapply IH.
    + intros [= <- <-].
      by apply (heard_server_body oq server t Hoq s _ _ Hbody).
Qed.

End HeardSince.

Lemma heard_recurlookup udp q fuel t l :
  post_rel (heard_since udp q) (_recurlookup udp fuel t q l).
Proof.
  revert t l. induction fuel as [|fuel IH]; intros t l; [done |].
  intros s r s'. rewrite recurlookup_server_loop.
  apply heard_server_loop; [apply grows_recurlookup | apply IH | done].
Qed.

(** X9: a response the engine returns is one the transport gave, during
    this very lookup, to a call for the query type asked: the engine
    returns no response of its own making and none obtained for another
    type (the name asked in that call may be an alias target). *)
Theorem returned_response_was_received udp fuel target_name qtype servers
    s response s' :
  _recurlookup udp fuel target_name qtype servers s = Done (Some response) s' →
  ∃ log c rest,
    udp_log s' = log ++ c :: rest
    ∧ udp_log s `prefix_of` log
    ∧ udp log c = Some response
    ∧ call_qtype c = qtype.
Proof. apply (heard_recurlookup udp qtype fuel target_name servers). Qed.

Lemma returned_response_was_received_witness :
  ∃ s' log c rest,
    _recurlookup Net.glue_net 2 "example.com." 1 ROOT_SERVERS initial_state
    = Done (Some (Message [Net.A_rec "example.com." "93.184.216.34"] [] []))
        s'
    ∧ udp_log s' = log ++ c :: rest
    ∧ udp_log initial_state `prefix_of` log
    ∧ Net.glue_net log c
      = Some (Message [Net.A_rec "example.com." "93.184.216.34"] [] [])
    ∧ call_qtype c = 1.
Proof.
  eexists.
  assert (∀ (P : Prop) (Q : list udp_call → udp_call → list udp_call → Prop),
            P → (P → ∃ log c rest, Q log c rest) →
            ∃ log c rest, P ∧ Q log c rest) as Hsplit.
  { intros P Q HP HQ. destruct (HQ HP) as (log & c & rest & H). eauto. }
  apply Hsplit; [vm_compute; reflexivity |].
  apply (returned_response_was_received Net.glue_net 2 "example.com." 1
           ROOT_SERVERS initial_state).
Defined.


(** ** The router's edges *)

Lemma lookup_dotless_raises_witness :
  lookup Net.dead_net 3 "localhost" 1 initial_state
  = Raised IndexError initial_state.
Proof.
  apply (lookup_dotless_raises Net.dead_net 3 "localhost" 1 initial_state).
  reflexivity.
Defined.

Lemma split_on_dotless sep (w : string) :
  Py.contains sep w = false → Py.split_on sep w = [w].
Proof.
  intros Hw. unfold Py.split_on. rewrite <- (append_nil_r w) at 1.
  by rewrite split_on_from_field.
Qed.

(** X12: when the CNAME lookup returns a response whose last answer
    record's text, less its final character, has no dot (an alias to a
    single-label name such as [localhost.]), the aggregator raises
    IndexError at the A lookup and builds no aggregate. *)
Theorem collect_results_single_label_alias_raises udp from_text fuel name s
    response s1 :
  lookup udp fuel (from_text name) 5 s = Done (Some response) s1 →
  Py.contains "."
    (clobbered (flat_map rr_items (answer response)) (from_text name))
  = false →
  collect_results udp from_text fuel name s = Raised IndexError s1.
Proof.
  intros Hcname Hdot. unfold collect_results.
  erewrite bind_Done by exact Hcname.
  cbn beta iota. rewrite cname_loop_all. cbn beta iota.
  apply bind_Raised. unfold lookup.
  by rewrite split_on_dotless.
Qed.

Lemma collect_results_single_label_alias_raises_witness :
  collect_results Net.single_label_net Net.from_text 1 "intranet.example.com"
    initial_state
  = Raised IndexError
      (log_call (UdpCall "intranet.example.com." 5 "198.41.0.4")
         initial_state).
Proof.
  apply (collect_results_single_label_alias_raises Net.single_label_net
           Net.from_text 1 "intranet.example.com" initial_state
           (Message [Net.CNAME_rec "intranet.example.com." "localhost."]
              [] [])).
  - vm_compute. reflexivity.
  - reflexivity.
Defined.

(** X13: the Address Cache round trip: once the Glue Extractor has read
    an address record of zone label [zone], the router seeds the engine,
    for any name whose label before the last is [zone], with a cached
    list that holds the record's address, not with the root servers. *)
Theorem cached_glue_seeds_lookup udp fuel text zone address labels last
    qtype s :
  glue_record text zone address →
  Forall (λ w, Py.contains "." w = false) (labels ++ [zone; last]) →
  let target_name := Py.join "." (labels ++ [zone; last]) in
  ∃ cached_address,
    address ∈ cached_address
    ∧ bind (dns_caching text) (λ _, lookup udp fuel target_name qtype) s
      = _recurlookup udp fuel target_name qtype cached_address
          (merged zone address s).
Proof.
  intros (HA & first & H0 & H2 & H1) Hlabels target_name.
  destruct (spec_merge_lookup zone address (dns_cache s)) as (l & Hl & Hin).
  exists l. split; [done |].
  erewrite bind_Done by by eapply dns_caching_glue.
  unfold lookup, target_name.
  rewrite split_on_join; [| by destruct labels | done].
  unfold index_or_raise. rewrite index_second_to_last.
  unfold bind, ret, get_state. simpl. by rewrite Hl.
Qed.

Lemma cached_glue_seeds_lookup_witness :
  ∃ cached_address,
    "10.0.0.1" ∈ cached_address
    ∧ bind (dns_caching "ns.example.com. 3600 IN A 10.0.0.1")
        (λ _, lookup Net.glue_net 2 "www.example.com." 1) initial_state
      = _recurlookup Net.glue_net 2 "www.example.com." 1 cached_address
          (merged "com" "10.0.0.1" initial_state).
Proof.
  apply (cached_glue_seeds_lookup Net.glue_net 2
           "ns.example.com. 3600 IN A 10.0.0.1" "com" "10.0.0.1"
           ["www"; "example"] "" 1 initial_state).
  - split; [apply (bool_decide_unpack _); vm_compute; exact I |].
    exists "ns.example.com.". repeat split; reflexivity.
  - repeat constructor.
Defined.

(** X14: a lookup seeded from the Address Cache never falls back to the
    root servers: when the transport fails for every cached address the
    router returns absent, having called the cached addresses only. *)
Theorem lookup_cached_no_fallback udp fuel labels key last qtype
    cached_address s :
  Forall (λ w, Py.contains "." w = false) (labels ++ [key; last]) →
  let target_name := Py.join "." (labels ++ [key; last]) in
  dns_cache s !! key = Some cached_address →
  all_fail udp (udp_log s) (calls_to (target_name, qtype) cached_address) →
  lookup udp (S fuel) target_name qtype s
  = Done None (log_calls (calls_to (target_name, qtype) cached_address) s).
Proof.
  intros Hlabels target_name Hcached Hfail. unfold lookup, target_name.
  rewrite split_on_join; [| by destruct labels | done].
  unfold index_or_raise. rewrite index_second_to_last.
  unfold bind, ret, get_state. rewrite Hcached.
  by apply recurlookup_transport_failures.
Qed.

Lemma lookup_cached_no_fallback_witness :
  lookup Net.dead_net 1 "example.com." 1
    (merged "com" "10.0.0.1" initial_state)
  = Done None
      (log_calls [UdpCall "example.com." 1 "10.0.0.1"]
         (merged "com" "10.0.0.1" initial_state)).
Proof.
  apply (lookup_cached_no_fallback Net.dead_net 0 ["example"] "com" "" 1
           ["10.0.0.1"] (merged "com" "10.0.0.1" initial_state)).
  - repeat constructor.
  - reflexivity.
  - simpl. auto.
Defined.

(** ** A network that never answers *)

Lemma all_fail_silent udp log calls :
  (∀ log' c, udp log' c = None) → all_fail udp log calls.
Proof.
  intros Hsilent. revert log.
  induction calls as [|c calls IH]; intros log; simpl; auto.
Qed.

Lemma lookup_root_silent udp fuel labels key last qtype s :
  (∀ log c, udp log c = None) →
  Forall (λ w, Py.contains "." w = false) (labels ++ [key; last]) →
  dns_cache s !! key = None →
  lookup udp (S fuel) (Py.join "." (labels ++ [key; last])) qtype s
  = Done None
      (log_calls
         (calls_to (Py.join "." (labels ++ [key; last]), qtype) ROOT_SERVERS)
         s).
Proof.
  intros Hsilent Hlabels Hkey. unfold lookup.
  rewrite split_on_join; [| by destruct labels | done].
  unfold index_or_raise. rewrite index_second_to_last.
  unfold bind, ret, get_state. rewrite Hkey.
  apply recurlookup_transport_failures. by apply all_fail_silent.
Qed.

(** X15: when no server ever answers and the Address Cache has nothing
    under the name's key, the aggregator makes its four lookups in the
    order CNAME, A, AAAA, MX, each asking the thirteen root servers in
    order once for the same name, and returns the empty aggregate. *)
Theorem collect_results_silent_network udp from_text fuel name labels key
    last s :
  (∀ log c, udp log c = None) →
  Forall (λ w, Py.contains "." w = false) (labels ++ [key; last]) →
  from_text name = Py.join "." (labels ++ [key; last]) →
  dns_cache s !! key = None →
  collect_results udp from_text (S fuel) name s
  = Done (FullResponse [] [] [] [])
      (log_calls
         (calls_to (from_text name, 5) ROOT_SERVERS
          ++ calls_to (from_text name, 1) ROOT_SERVERS
          ++ calls_to (from_text name, 28) ROOT_SERVERS
          ++ calls_to (from_text name, 15) ROOT_SERVERS) s).
Proof.
  intros Hsilent Hlabels Hname Hkey. unfold collect_results.
  rewrite Hname.
  erewrite bind_Done by by apply lookup_root_silent.
  cbn beta iota.
  erewrite bind_Done by by apply lookup_root_silent.
  erewrite bind_Done by by apply lookup_root_silent.
  erewrite bind_Done by by apply lookup_root_silent.
  unfold ret. by rewrite !log_calls_app.
Qed.

Lemma collect_results_silent_network_witness :
  collect_results Net.dead_net Net.from_text 1 "example.com" initial_state
  = Done (FullResponse [] [] [] [])
      (log_calls
         (calls_to ("example.com.", 5) ROOT_SERVERS
          ++ calls_to ("example.com.", 1) ROOT_SERVERS
          ++ calls_to ("example.com.", 28) ROOT_SERVERS
          ++ calls_to ("example.com.", 15) ROOT_SERVERS) initial_state).
Proof.
  apply (collect_results_silent_network Net.dead_net Net.from_text 0
           "example.com" ["example"] "com" "" initial_state).
  - reflexivity.
  - repeat constructor.
  - reflexivity.
  - reflexivity.
Defined.


(** ** Glue read during a referral *)

Lemma cache_le_holds c c' k l (a : string) :
  cache_le c c' → c !! k = Some l → a ∈ l →
  ∃ l', c' !! k = Some l' ∧ a ∈ l'.
Proof.
  intros Hle Hk Ha. destruct (Hle k l Hk) as (l' & Hk' & [rest ->]).
  exists (l ++ rest). split; [done |]. apply elem_of_app. by left.
Qed.

(** X19: after the glue loop of a referral, every additional record that
    read as an address record has its address in the candidate list
    handed to the recursion and in the Address Cache under its zone
    label. *)
Theorem additional_loop_caches_glue sections acc s glue s' rs zone address :
  additional_loop sections acc s = Done glue s' →
  rs ∈ sections →
  glue_record (rr_str rs) zone address →
  address ∈ glue
  ∧ ∃ l, dns_cache s' !! zone = Some l ∧ address ∈ l.
Proof.
  intros Hrun Hin (HA & first & H0 & H2 & H1). revert acc s Hrun.
  induction Hin as [rs sections|rs x sections Hin IH]; intros acc s.
  - simpl. erewrite bind_Done by by eapply dns_caching_glue.
    intros Hrest. split.
    + apply additional_loop_gathers in Hrest as (per_record & -> & _).
      rewrite !elem_of_app, list_elem_of_singleton. auto.
    + pose proof (grows_additional_loop sections (acc ++ [address])
                    (merged zone address s)) as Hg.
      rewrite Hrest in Hg.
      destruct (spec_merge_lookup zone address (dns_cache s))
        as (l & Hl & Hl_in).
      by eapply (cache_le_holds _ _ _ _ _ (ext_cache _ _ Hg)).
  - simpl. unfold bind.
    destruct (dns_caching (rr_str x) s) as [addr s1|e s1|]; [| done | done].
    by apply IH.
Qed.

Lemma additional_loop_caches_glue_witness :
  ∃ glue s',
    additional_loop
      [Net.A_rec "a.gtld-servers.net." "10.0.1.1";
       Net.A_rec "ns.example.com." "10.0.2.1"] [] initial_state
    = Done glue s'
    ∧ "10.0.2.1" ∈ glue
    ∧ ∃ l, dns_cache s' !! "com" = Some l ∧ "10.0.2.1" ∈ l.
Proof.
  eexists. eexists.
  assert (∀ P Q : Prop, P → (P → Q) → P ∧ Q) as Hsplit by tauto.
  apply Hsplit; [vm_compute; reflexivity |].
  intros Hrun.
  apply (additional_loop_caches_glue _ [] initial_state _ _
           (Net.A_rec "ns.example.com." "10.0.2.1") "com" "10.0.2.1" Hrun).
  - apply list_elem_of_further, list_elem_of_here.
  - split; [apply (bool_decide_unpack _); vm_compute; exact I |].
    exists "ns.example.com.". repeat split; reflexivity.
Defined.

(** ** Alias chains *)

(** X20: along an alias chain of length [n] for a query type other than
    CNAME, the engine returns the final response, which answers the
    query, whenever its recursion budget exceeds [n]: each alias is chased
    by a restart from the root servers and the chain's last response is
    the lookup's result. *)
Theorem alias_chain_resolves udp qtype n target_name servers s final s' fuel :
  alias_chain udp qtype n target_name servers s final s' →
  (n < fuel)%nat →
  _recurlookup udp fuel target_name qtype servers s = Done (Some final) s'
  ∧ answers_query qtype final.
Proof.
  intros Hchain. revert fuel.
  induction Hchain
    as [t tried server rest s response s1 Hfail Hudp Hans
       |n t tried server rest s response pre a post final s4 s1 Hfail Hudp
          Hflat Hpre Ha Hq Hchain IH];
    intros fuel Hfuel.
  - destruct fuel as [|fuel]; [lia |].
    pose proof (exhausted_all_fail udp (_recurlookup udp fuel)
                  (make_query t qtype) qtype tried t s Hfail) as Hex.
    split; [| done].
    destruct Hans as (pre & a & post & Hflat & Hpre & Ha).
    rewrite recurlookup_unfold.
    erewrite server_loop_exhausted by exact Hex.
    rewrite server_loop_cons. unfold bind at 1.
    assert (answer response ≠ []) as Hne.
    { intros Hnil. rewrite Hnil in Hflat. by destruct pre. }
    rewrite (server_body_answers udp _ (make_query t qtype) qtype server t _
               response Hudp Hne).
    erewrite answers_loop_first; [| exact Hflat | exact Hpre |].
    + unfold decided. by rewrite decide_True by done.
    + unfold relevant. by rewrite (bool_decide_eq_true_2 _ Ha).
  - destruct fuel as [|fuel]; [lia |].
    pose proof (exhausted_all_fail udp (_recurlookup udp fuel)
                  (make_query t qtype) qtype tried t s Hfail) as Hex.
    destruct (IH fuel ltac:(lia)) as [Hrun Hans].
    split; [| done].
    rewrite recurlookup_unfold.
    erewrite server_loop_exhausted by exact Hex.
    rewrite server_loop_cons. unfold bind at 1.
    assert (answer response ≠ []) as Hne.
    { intros Hnil. rewrite Hnil in Hflat. by destruct pre. }
    rewrite (server_body_answers udp _ (make_query t qtype) qtype server t _
               response Hudp Hne).
    erewrite answers_loop_first; [| exact Hflat | exact Hpre |].
    + unfold decided. rewrite decide_False by congruence.
      unfold bind, ret, make_query. cbn [fst snd]. fold s1.
      by rewrite Hrun.
    + unfold relevant. rewrite (bool_decide_eq_true_2 (rdtype a = 5) Ha).
      apply orb_true_r.
Qed.

Lemma alias_chain_resolves_witness :
  ∃ s',
    _recurlookup Net.alias_net 2 "www.example.com." 1 ["10.0.0.9"; "10.0.0.1"]
      initial_state
    = Done (Some (Message [Net.A_rec "example.com." "93.184.216.34"] [] []))
        s'
    ∧ answers_query 1
        (Message [Net.A_rec "example.com." "93.184.216.34"] [] []).
Proof.
  eexists.
  apply (alias_chain_resolves Net.alias_net 1 1 "www.example.com."
           ["10.0.0.9"; "10.0.0.1"] initial_state); [| lia].
  apply (alias_step Net.alias_net 1 0 "www.example.com." ["10.0.0.9"]
           "10.0.0.1" [] initial_state Net.alias_response []
           (Rdata 5 "example.com." 0 "") [Rdata 1 "93.184.216.34" 0 ""]);
    [simpl; auto | reflexivity | reflexivity | constructor | reflexivity
    | discriminate |].
  apply (alias_end Net.alias_net 1 "example.com" [] "198.41.0.4"
           (tail ROOT_SERVERS) _
           (Message [Net.A_rec "example.com." "93.184.216.34"] [] []));
    [simpl; auto | reflexivity |].
  exists [], (Rdata 1 "93.184.216.34" 0 ""), [].
  split; [reflexivity | split; [constructor | reflexivity]].
Defined.
